(** * Bacalhau: dashboard graph builder, IPFS HTTP client and Estuary publisher

    A shallow embedding of the Go sources

      - [dashboard/api/main.go]            ([updateResult]),
      - [pkg/ipfs/http/httpclient.go]      ([GetLocalAddrStrings], [GetSwarmAddresses]),
      - [pkg/publisher/estuary/pinner.go]  ([EstuaryPinner.PublishShardResult]),
      - [pkg/publisher/estuary/publisher.go] and the endpoint helpers
        ([EstuaryPublisher.PublishShardResult], [GetShuttleClients],
        [getWriteAPIURLs]),

    together with the properties of these functions.

    Conventions.  A Go [string] is a [string] of bytes.  A Go [error] value is
    an element of [error]; the nil error is [None].  A function returning
    [(T, error)] returns a pair [T * option error], since Go returns both
    components.  Calls into libraries that are not part of the repository
    (net/url, encoding/json, the generated OpenAPI client, math/rand, the IPFS
    API) are taken as parameters of the functions that use them.  Tracing
    spans ([newSpan], [span.End]) have no part in what is proved and are
    left out. *)

From Stdlib Require Import String Ascii List ZArith Lia.
From stdpp Require Import base list gmap strings sorting fin_maps.

Open Scope string_scope.
Open Scope list_scope.

(** ** Go strings: the byte-wise lexicographic order used by [sort.Strings] *)

Module GoString.

Definition le (s1 s2 : string) : Prop := String.leb s1 s2 = true.

#[global] Instance le_dec : RelDecision le.
Proof. intros s1 s2. unfold le. apply _. Defined.

End GoString.

(** ** Go values shared by the packages below *)

Module Go.

(** Error values.  [fmt.Errorf format args...] is kept unrendered as
    [Errorf format args]; an argument [err.Error()] is [ArgErrorText err]. *)
Inductive error :=
| LibError (msg : string)
| io_EOF
| Errorf (format : string) (args : list fmt_arg)
with fmt_arg :=
| ArgString (s : string)
| ArgInt (n : Z)
| ArgErrorText (e : error).

(** What a run of a function leaves behind: the events it caused, in order,
    and either its return value or a run-time panic. *)
Inductive Run (E A : Type) :=
| Done (trace : list E) (a : A)
| Panicked (trace : list E) (reason : string).
Arguments Done {E A} trace a.
Arguments Panicked {E A} trace reason.

Definition Run_bind {E A B} (f : A → Run E B) (m : Run E A) : Run E B :=
  match m with
  | Done t a =>
      match f a with
      | Done t' b => Done (t ++ t') b
      | Panicked t' r => Panicked (t ++ t') r
      end
  | Panicked t r => Panicked t r
  end.

#[global] Instance Run_ret {E} : MRet (Run E) := λ A a, Done [] a.
#[global] Instance Run_mbind {E} : MBind (Run E) := λ A B, Run_bind.

Definition emit {E} (e : E) : Run E () := Done [e] ().
Definition panic {E A} (reason : string) : Run E A := Panicked [] reason.

Definition trace {E A} (m : Run E A) : list E :=
  match m with Done t _ => t | Panicked t _ => t end.

Definition returned {E A} (m : Run E A) : option A :=
  match m with Done _ a => Some a | Panicked _ _ => None end.

End Go.

(** ** [pkg/ipfs/http/httpclient.go] *)

Module IpfsHttp.
Import Go.

Section Client.

(** Multiaddresses belong to go-multiaddr; [Multiaddr_String] is their
    [String] method. *)
Variable Multiaddr : Type.
Variable Multiaddr_String : Multiaddr → string.

(** The answers of the IPFS node behind [ipfsHttp.Api] to the two calls used
    here: [Swarm().LocalAddrs(ctx)], and [Key().Self(ctx)] with the text
    [key.ID().String()] of the key it returns. *)
Record IPFSHttpClient := {
  Swarm_LocalAddrs : list Multiaddr * option error;
  Key_Self : string * option error
}.

Definition GetLocalAddrs (ipfsHttp : IPFSHttpClient)
    : list Multiaddr * option error :=
  Swarm_LocalAddrs ipfsHttp.

Definition GetPeerId (ipfsHttp : IPFSHttpClient) : string * option error :=
  let '(key, err) := Key_Self ipfsHttp in
  match err with
  | Some err => ("", Some err)
  | None => (key, None)
  end.

Definition GetLocalAddrStrings (ipfsHttp : IPFSHttpClient)
    : list string * option error :=
  let addressStrings : list string := [] in
  let '(addrs, err) := GetLocalAddrs ipfsHttp in
  match err with
  | Some _ => (addressStrings, None)
  | None =>
      let addressStrings :=
        foldl (λ addressStrings addr,
                 addressStrings ++ [Multiaddr_String addr])
              addressStrings addrs in
      (addressStrings, None)
  end.

Definition GetSwarmAddresses (ipfsHttp : IPFSHttpClient)
    : list string * option error :=
  let addressStrings : list string := [] in
  let '(addresses, err) := GetLocalAddrStrings ipfsHttp in
  match err with
  | Some _ => (addressStrings, None)
  | None =>
      let '(peerId, err) := GetPeerId ipfsHttp in
      match err with
      | Some _ => (addressStrings, None)
      | None =>
          let addressStrings :=
            foldl (λ addressStrings address,
                     addressStrings ++ [address +:+ "/p2p/" +:+ peerId])
                  addressStrings addresses in
          (addressStrings, None)
      end
  end.

End Client.

Arguments Swarm_LocalAddrs {Multiaddr} _.
Arguments Key_Self {Multiaddr} _.
Arguments Build_IPFSHttpClient {Multiaddr} _ _.
Arguments GetLocalAddrs {Multiaddr} _.
Arguments GetPeerId {Multiaddr} _.
Arguments GetLocalAddrStrings {Multiaddr} _ _.
Arguments GetSwarmAddresses {Multiaddr} _ _.

End IpfsHttp.

(** ** [pkg/publisher/estuary] *)

Module Estuary.
Import Go.

(** *** Data *)

(** The zerolog levels used by the package. *)
Inductive Level := DebugLevel | InfoLevel | WarnLevel | ErrorLevel.

(** A field attached to a log line ([Str], [Int], [Bool], [Err]). *)
Inductive Field :=
| FStr (s : string)
| FInt (n : Z)
| FBool (b : bool)
| FErr (err : option error).

(** [model.StorageSpec] and [model.StorageSourceType] are declared outside
    the sources at hand: a storage spec is taken with the three components
    a publish spec has, and its zero value is [StorageSpec_zero]. *)
Inductive StorageSourceType :=
| StorageSourceUnknown
| StorageSourceIPFS
| StorageSourceEstuary.

Record StorageSpec := mkStorageSpec {
  StorageSource : StorageSourceType;
  Name : string;
  CID : string
}.

Definition StorageSpec_zero : StorageSpec :=
  mkStorageSpec StorageSourceUnknown "" "".

(** The string components of a [url.URL]; the zero value has all of them
    empty. *)
Record URL := mkURL {
  Scheme : string;
  Opaque : string;
  Host : string;
  Path : string;
  RawQuery : string;
  Fragment : string
}.

Definition URL_zero : URL := mkURL "" "" "" "" "" "".

Record Request := mkRequest {
  Method : string;
  RequestURL : string;
  Header : list (string * string)
}.

Definition RequestEditorFn : Type := Request → Request * option error.

(** A response body is read through [io.Reader]: every [Read] delivers at
    most one of the pending [chunks], and the reader is free to report
    [io.EOF] together with the last bytes ([eof_with_last]) or only on the
    next call. *)
Record Body := mkBody {
  chunks : list (list Byte.byte);
  eof_with_last : bool
}.

Record Response := mkResponse {
  StatusCode : Z;
  ContentLength : Z;
  ResponseBody : Body
}.

(** [body.Read(p)]: the buffer after the call, the number of bytes read, the
    error, and the body that remains. *)
Definition Body_Read (body : Body) (p : list Byte.byte)
    : list Byte.byte * nat * option error * Body :=
  match chunks body with
  | [] => (p, 0, Some io_EOF, body)
  | c :: rest =>
      let n := length c `min` length p in
      let rest' := if decide (n < length c) then drop n c :: rest else rest in
      let err :=
        if eof_with_last body && bool_decide (rest' = [])
        then Some io_EOF else None in
      (take n c ++ drop n p, n, err, mkBody rest' (eof_with_last body))
  end.

(** Partial results from the '/viewer' API endpoint. *)
Record EstuaryAPIConfig := mkEstuaryAPIConfig {
  ContentAddingDisabled : bool;
  UploadEndpoints : list string
}.

Record EstuaryPublisherConfig := mkEstuaryPublisherConfig {
  APIKey : string
}.

(** What [StatusCode()] returns on a response of the generated client. *)
Record APIResponse := mkAPIResponse { APIStatusCode : Z }.

Record PostPinningPinsJSONRequestBody := mkPostPinningPinsJSONRequestBody {
  Cid : string;
  PinName : string
}.

(** *** The surroundings of the package

    The process environment, the standard library, the generated OpenAPI
    client, the CAR packer and the remote hosts.  A pointer returned along
    with an error is a sum: the pointer is nil exactly when the error is
    not. *)
Class Platform := {
  os_Getenv : string → string;
  os_MkdirTemp : string → string → string + error;
  os_Open : string → () + error;
  filepath_Join : string → string → string;
  url_Parse : string → URL + error;
  url_String : URL → string;
  json_Unmarshal : list Byte.byte → EstuaryAPIConfig + error;
  (** [http.NewRequestWithContext method url nil] fails with this error, or
      returns the request for [method] and [url]. *)
  http_NewRequest_error : string → string → option error;
  (** the pseudo-random source of math/rand and its bounded draw: for a
      positive [n] an index below [n], with the state of the source after
      the draw, however many raw values the source gave for it *)
  Rng : Type;
  rand_Intn : Rng → nat → nat * Rng;
  rand_Intn_lt : ∀ g n, (0 < n)%nat → ((rand_Intn g n).1 < n)%nat;
  (** the generated client *)
  Client : Type;
  Server : Client → string;
  NewClient : string → RequestEditorFn → Client + error;
  applyEditors : Client → Request → Request * option error;
  Client_Do : Client → Request → Response + error;
  ClientWithResponses : Type;
  NewClientWithResponses :
    string → RequestEditorFn → ClientWithResponses + error;
  PostContentAddCarWithBodyWithResponse :
    ClientWithResponses → string → APIResponse * option error;
  PostPinningPinsWithResponse :
    ClientWithResponses → PostPinningPinsJSONRequestBody →
    APIResponse * option error;
  (** the rest of the repository *)
  JobShard : Type;
  car_CreateCar : string → string → Z → string + error;
  GetPublishedStorageSpec :
    JobShard → StorageSourceType → string → string → StorageSpec
}.

(** What the package does to the world. *)
#[warnings="-register-all"]
Inductive Event `{Platform} :=
| Log (level : Level) (fields : list (string * Field)) (msg : string)
| HTTPDo (req : Request)
| BodyClose
| FileOpen (name : string)
| FileClose (name : string)
| ContentAddCar (client : ClientWithResponses) (contentType : string)
| PinningPins (body : PostPinningPinsJSONRequestBody)
| Spawn (task : list Event).

Definition http_StatusOK : Z := 200.
Definition http_StatusAccepted : Z := 202.

Section Package.
Context `{Platform}.

Definition log (level : Level) (fields : list (string * Field))
    (msg : string) : Run Event () :=
  emit (Log level fields msg).

(** *** endpoints *)

Definition gatewayEndpoint : string := "https://api.estuary.tech".

Definition makeAuthorizer (apiKey : string) : RequestEditorFn :=
  λ req,
    (mkRequest (Method req) (RequestURL req)
       (Header req ++ [("Authorization", "Bearer " +:+ apiKey)]),
     None).

Definition getGatewayURL : string :=
  let baseURL := os_Getenv "BACALHAU_ESTUARY_READ_API_URL" in
  if decide (baseURL = "") then gatewayEndpoint else baseURL.

(** The loop over [config.Settings.UploadEndpoints]; [uploadURLs] is the
    slice appended to. *)
Fixpoint appendUploadURLs (servers : list string) (uploadURLs : list URL)
    : Run Event (list URL) :=
  match servers with
  | [] => mret uploadURLs
  | server :: servers =>
      match url_Parse server with
      | inr err =>
          log WarnLevel [("error", FErr (Some err)); ("URL", FStr server)]
              "Estuary server URL malformed";;
          appendUploadURLs servers uploadURLs
      | inl parsedURL =>
          appendUploadURLs servers (uploadURLs ++ [parsedURL])
      end
  end.

Definition getWriteAPIURLs (client : Client)
    : Run Event (list URL * option error) :=
  let baseURL := os_Getenv "BACALHAU_ESTUARY_WRITE_API_URL" in
  if decide (baseURL ≠ "") then
    log DebugLevel [("Host", FStr baseURL)]
        "Using env-defined Estuary upload host";;
    match url_Parse baseURL with
    | inl parsedURL => mret ([parsedURL], None)
    | inr err => panic "invalid memory address or nil pointer dereference"
    end
  else
    match http_NewRequest_error "GET" (Server client +:+ "/viewier") with
    | Some err => mret ([], Some err)
    | None =>
    let req := mkRequest "GET" (Server client +:+ "/viewier") [] in
    let '(req, err) := applyEditors client req in
    match err with
    | Some err => mret ([], Some err)
    | None =>
    emit (HTTPDo req);;
    match Client_Do client req with
    | inr err =>
        mret ([], Some (Errorf "error trying to read Estuary config: %s"
                               [ArgErrorText err]))
    | inl estuaryConfigResp =>
    if decide (ContentLength estuaryConfigResp < 0)%Z then
      panic "makeslice: len out of range"
    else
    let responseBody :=
      replicate (Z.to_nat (ContentLength estuaryConfigResp)) Byte.x00 in
    let '(responseBody, bytesRead, err, _) :=
      Body_Read (ResponseBody estuaryConfigResp) responseBody in
    (** everything below runs before the deferred [Body.Close()] *)
    result ←
      match err with
      | Some err => mret ([], Some err)
      | None =>
      if decide (Z.of_nat bytesRead ≠ ContentLength estuaryConfigResp) then
        mret ([], Some (Errorf "read %d bytes but expected %d"
                          [ArgInt (Z.of_nat bytesRead);
                           ArgInt (ContentLength estuaryConfigResp)]))
      else
      match json_Unmarshal responseBody with
      | inr err =>
          mret ([], Some (Errorf "error parsing Estuary config: %s"
                                 [ArgErrorText err]))
      | inl config =>
      if ContentAddingDisabled config then
        mret ([], Some (Errorf
          "cannot upload content because Estuary uploads are disabled" []))
      else
        let uploadURLs :=
          replicate (length (UploadEndpoints config)) URL_zero in
        uploadURLs ← appendUploadURLs (UploadEndpoints config) uploadURLs;
        mret (uploadURLs, None)
      end
      end;
    emit BodyClose;;
    mret result
    end
    end
    end.

(** [rand.Shuffle(n, swap)] of math/rand: for [i] from [n-1] down to [1] it
    draws [j] in [[0, i]] and calls [swap(i, j)].  [S] is the state the
    closure [swap] acts on; a [swap] that panics stops the run. *)
Fixpoint Shuffle_from {S : Type} (i : nat)
    (swap : nat → nat → S → option S) (g : Rng) (s : S) : option (S * Rng) :=
  match i with
  | 0 => Some (s, g)
  | S i' =>
      let '(j, g) := rand_Intn g (i + 1) in
      s ← swap i j s;
      Shuffle_from i' swap g s
  end.

Definition rand_Shuffle {S : Type} (n : nat)
    (swap : nat → nat → S → option S) (g : Rng) (s : S) : option (S * Rng) :=
  Shuffle_from (n - 1) swap g s.

(** The draws of [rand.Shuffle(n, _)], whatever the closure does with them:
    the index drawn for [i = n-1], then the one for [i = n-2], down to
    [i = 1], and the state of the source after the last of them. *)
Fixpoint draws_from (i : nat) (g : Rng) : list nat * Rng :=
  match i with
  | 0 => ([], g)
  | S i' =>
      let '(j, g) := rand_Intn g (i + 1) in
      let '(js, g) := draws_from i' g in
      (j :: js, g)
  end.

Definition Shuffle_draws (n : nat) (g : Rng) : list nat * Rng :=
  draws_from (n - 1) g.

(** The closure passed to [rand.Shuffle]:
    [uploadURLs[i], uploadURLs[j] = uploadURLs[j], uploadURLs[i]];
    an index out of range panics. *)
Definition swapURLs (i j : nat) (uploadURLs : list URL) : option (list URL) :=
  ui ← uploadURLs !! i;
  uj ← uploadURLs !! j;
  Some (<[j := ui]> (<[i := uj]> uploadURLs)).

(** The loop that builds one client per upload URL. *)
Fixpoint appendClients (authorizer : RequestEditorFn) (uploadURLs : list URL)
    (clients : list ClientWithResponses)
    : list ClientWithResponses * option error :=
  match uploadURLs with
  | [] => (clients, None)
  | url :: uploadURLs =>
      match NewClientWithResponses (url_String url) authorizer with
      | inr err => ([], Some err)
      | inl client => appendClients authorizer uploadURLs (clients ++ [client])
      end
  end.

(** [GetShuttleClients]; [g] is the state of the global random source, and
    the state after the call is returned with the result. *)
Definition GetShuttleClients (config : EstuaryPublisherConfig) (g : Rng)
    : Run Event (list ClientWithResponses * option error * Rng) :=
  let authorizer := makeAuthorizer (APIKey config) in
  match NewClient getGatewayURL authorizer with
  | inr err => mret ([], Some err, g)
  | inl client =>
  '(uploadURLs, err) ← getWriteAPIURLs client;
  let err :=
    match err with
    | None =>
        if decide (length uploadURLs < 1)
        then Some (Errorf "no Estuary servers are available" [])
        else None
    | Some err => Some err
    end in
  match err with
  | Some err => mret ([], Some err, g)
  | None =>
  match rand_Shuffle (length uploadURLs) swapURLs g uploadURLs with
  | None => panic "index out of range"
  | Some (uploadURLs, g) =>
      let '(clients, err) := appendClients authorizer uploadURLs [] in
      mret (clients, err, g)
  end
  end
  end.

(** The endpoint strings of a config that [url.Parse] accepts, parsed, in
    the order of the config. *)
Definition parsedEndpoints (servers : list string) : list URL :=
  omap (λ server,
          match url_Parse server with
          | inl parsedURL => Some parsedURL
          | inr _ => None
          end)
       servers.

(** The HTTP requests sent to the gateway in a run. *)
Definition requests (t : list Event) : list Request :=
  omap (λ e, match e with HTTPDo req => Some req | _ => None end) t.

(** *** publisher *)

(** The loop of [EstuaryPublisher.PublishShardResult] over the shuttles.
    [deferred] holds the pending [defer fileReader.Close()] calls, which run
    when the function returns, the latest first. *)
Fixpoint tryShuttles (shard : JobShard) (hostID carFile cid : string)
    (shuttles : list ClientWithResponses) (deferred : list Event)
    : Run Event (StorageSpec * option error) :=
  match shuttles with
  | [] =>
      Done deferred
        (StorageSpec_zero,
         Some (Errorf "failed to upload to any Estuary host" []))
  | client :: shuttles =>
      emit (FileOpen carFile);;
      match os_Open carFile with
      | inr err => Done deferred (StorageSpec_zero, Some err)
      | inl fileReader =>
          let deferred := FileClose carFile :: deferred in
          emit (ContentAddCar client "multipart/form-data");;
          let '(_, err) :=
            PostContentAddCarWithBodyWithResponse client
              "multipart/form-data" in
          match err with
          | Some err =>
              log ErrorLevel [("error", FErr (Some err))]
                  "failed to upload to Estuary host";;
              tryShuttles shard hostID carFile cid shuttles deferred
          | None =>
              Done deferred
                (GetPublishedStorageSpec shard StorageSourceEstuary hostID cid,
                 None)
          end
      end
  end.

Definition EstuaryPublisher_PublishShardResult
    (estuaryPublisher : EstuaryPublisherConfig) (shard : JobShard)
    (hostID shardResultPath : string) (g : Rng)
    : Run Event (StorageSpec * option error * Rng) :=
  log InfoLevel [] "Publishing shard %v results to Estuary";;
  match os_MkdirTemp "" "bacalhau-estuary-publisher" with
  | inr err => mret (StorageSpec_zero, Some err, g)
  | inl tempDir =>
  let carFile := filepath_Join tempDir "results.car" in
  match car_CreateCar shardResultPath carFile 1 with
  | inr err => mret (StorageSpec_zero, Some err, g)
  | inl cid =>
  '(shuttles, err, g) ← GetShuttleClients estuaryPublisher g;
  match err with
  | Some err => mret (StorageSpec_zero, Some err, g)
  | None =>
      '(spec, err) ← tryShuttles shard hostID carFile cid shuttles [];
      mret (spec, err, g)
  end
  end
  end.

(** *** pinner *)

(** The interface [publisher.Publisher], as far as the pinner calls it. *)
Record Publisher := mkPublisher {
  Publisher_PublishShardResult :
    JobShard → string → string → Run Event (StorageSpec * option error)
}.

Record EstuaryPinner := mkEstuaryPinner {
  ipfsPublisher : Publisher;
  apiClient : ClientWithResponses
}.

Definition isNil (err : option error) : bool :=
  match err with None => true | Some _ => false end.

(** The body of the goroutine started by [EstuaryPinner.PublishShardResult]. *)
Definition pinTask (e : EstuaryPinner) (spec : StorageSpec) : Run Event () :=
  (if decide (CID spec = "" ∨ Name spec = "") then
     log ErrorLevel []
         "Spec %v did not contain a CID or name to pin to Estuary"
   else mret ());;
  let body := mkPostPinningPinsJSONRequestBody (CID spec) (Name spec) in
  emit (PinningPins body);;
  let '(response, err) := PostPinningPinsWithResponse (apiClient e) body in
  let success :=
    bool_decide (APIStatusCode response = http_StatusAccepted) && isNil err in
  let level := if success then InfoLevel else ErrorLevel in
  log level
      [("error", FErr err); ("CID", FStr (CID spec));
       ("Name", FStr (Name spec)); ("Success", FBool success);
       ("ResponseStatusCode", FInt (APIStatusCode response))]
      "Attempted to pin to Estuary".

(** [go func() { ... }()]: the caller goes on at once; the event [Spawn]
    records what the detached task does on its own. *)
Definition EstuaryPinner_PublishShardResult (e : EstuaryPinner)
    (shard : JobShard) (hostID shardResultPath : string)
    : Run Event (StorageSpec * option error) :=
  log DebugLevel [] "Publishing result to IPFS";;
  '(spec, err) ←
    Publisher_PublishShardResult (ipfsPublisher e) shard hostID
      shardResultPath;
  match err with
  | Some err => mret (spec, Some err)
  | None =>
      emit (Spawn (trace (pinTask e spec)));;
      mret (spec, None)
  end.

End Package.

End Estuary.

(** ** A concrete world for the Estuary package

    The gateway, its shuttles and the pinning service as a test double would
    script them; the theorems below are stated for every [Platform] and are
    run on this one. *)

Module Scenario.
Import Go Estuary.

Record Setup := mkSetup {
  (** the process environment *)
  env : string → string;
  (** the answer of the gateway to the config request *)
  gateway : Request → Response + error;
  (** the answer of a shuttle, by server URL, to the CAR upload *)
  shuttle : string → APIResponse * option error;
  (** the answer of the pinning service *)
  pinning : PostPinningPinsJSONRequestBody → APIResponse * option error;
  (** the draws the random source delivers *)
  draws : list nat
}.

(** [url.Parse] on the strings the scenarios use; any other string is
    taken as malformed. *)
Definition parsed_urls : list (string * URL) :=
  [("https://upload.estuary.tech",
    mkURL "https" "" "upload.estuary.tech" "" "" "");
   ("https://shuttle-4.estuary.tech",
    mkURL "https" "" "shuttle-4.estuary.tech" "" "" "");
   ("https://shuttle-5.estuary.tech",
    mkURL "https" "" "shuttle-5.estuary.tech" "" "" "");
   ("https://shuttle-6.estuary.tech",
    mkURL "https" "" "shuttle-6.estuary.tech" "" "" "")].

Fixpoint assoc {A} (key : string) (table : list (string * A)) : option A :=
  match table with
  | [] => None
  | (k, v) :: table => if decide (k = key) then Some v else assoc key table
  end.

Definition demo_Parse (s : string) : URL + error :=
  match assoc s parsed_urls with
  | Some u => inl u
  | None => inr (LibError "missing protocol scheme")
  end.

Definition demo_String (u : URL) : string :=
  if decide (Scheme u = "") then Path u
  else Scheme u +:+ "://" +:+ Host u +:+ Path u.

(** [json.Unmarshal] on the body the scenarios use (written here with ['] for
    the double quote). *)
Definition viewer_json : string :=
  "{'settings':{'uploadEndpoints':['https://shuttle-4.estuary.tech',':']}}".

Definition viewer_config : EstuaryAPIConfig :=
  mkEstuaryAPIConfig false ["https://shuttle-4.estuary.tech"; ":"].

Definition demo_Unmarshal (data : list Byte.byte) : EstuaryAPIConfig + error :=
  if decide (string_of_list_byte data = viewer_json) then inl viewer_config
  else inr (LibError "unexpected end of JSON input").

(** The generated constructors keep the server URL with a trailing slash. *)
Definition with_slash (server : string) : string :=
  if String.eqb (String.substring (String.length server - 1) 1 server) "/"
  then server else server +:+ "/".

Definition platform (s : Setup) : Platform := {|
  os_Getenv := env s;
  os_MkdirTemp := λ dir pattern, inl ("/tmp/" +:+ pattern +:+ "42");
  os_Open := λ name, inl ();
  filepath_Join := λ dir name, dir +:+ "/" +:+ name;
  url_Parse := demo_Parse;
  url_String := demo_String;
  json_Unmarshal := demo_Unmarshal;
  http_NewRequest_error := λ method url, None;
  Rng := list nat;
  rand_Intn := λ g n, (hd 0 g `mod` n, tl g);
  rand_Intn_lt := λ g n Hn,
    Nat.mod_upper_bound (hd 0 g) n (proj2 (Nat.neq_0_lt_0 n) Hn);
  Client := string * RequestEditorFn;
  Server := fst;
  NewClient := λ server editor, inl (with_slash server, editor);
  applyEditors := λ client req, client.2 req;
  Client_Do := λ client req, gateway s req;
  ClientWithResponses := string;
  NewClientWithResponses := λ server editor, inl (with_slash server);
  PostContentAddCarWithBodyWithResponse := λ client contentType,
    shuttle s client;
  PostPinningPinsWithResponse := λ client body, pinning s body;
  JobShard := string;
  car_CreateCar := λ dir carFile version, inl "bafybeigdyrzt5sfp7udm7hu76uh7y";
  GetPublishedStorageSpec := λ shard source hostID cid,
    mkStorageSpec source (shard +:+ "-host-" +:+ hostID) cid
|}.

(** No override in the environment. *)
Definition no_env : string → string := λ _, "".

(** A gateway that serves [viewer_json], delivering it in the given chunks. *)
Definition serve (body : list (list Byte.byte)) (eof : bool)
    : Request → Response + error :=
  λ req, inl (mkResponse 200 (Z.of_nat (String.length viewer_json))
                (mkBody body eof)).

Definition accepted : APIResponse * option error :=
  (mkAPIResponse 202, None).

Definition server_error : APIResponse * option error :=
  (mkAPIResponse 500, None).

(** The scenarios. *)

Definition viewer_bytes : list Byte.byte := list_byte_of_string viewer_json.

Definition gateway_down : Request → Response + error :=
  λ req, inr (LibError "connection refused").

Definition override_env : string → string :=
  λ name,
    if decide (name = "BACALHAU_ESTUARY_WRITE_API_URL")
    then "https://upload.estuary.tech" else "".

(** The gateway delivers the config in one piece; every upload is accepted. *)
Definition healthy : Setup :=
  mkSetup no_env (serve [viewer_bytes] false) (λ _, accepted) (λ _, accepted)
    [0; 1].

(** The gateway delivers the config in two pieces. *)
Definition split_body : Setup :=
  mkSetup no_env (serve [take 10 viewer_bytes; drop 10 viewer_bytes] false)
    (λ _, accepted) (λ _, accepted) [0; 1].

(** The upload target is forced by the environment; the gateway is down. *)
Definition overridden : Setup :=
  mkSetup override_env gateway_down (λ _, accepted) (λ _, accepted) [].

(** Every shuttle answers the upload with status 500. *)
Definition failing_shuttles : Setup :=
  mkSetup no_env (serve [viewer_bytes] false) (λ _, server_error)
    (λ _, accepted) [].

Definition gateway_client : string * RequestEditorFn :=
  ("https://api.estuary.tech/", makeAuthorizer "KEY").

Definition config_request : Request :=
  mkRequest "GET" "https://api.estuary.tech//viewier"
    [("Authorization", "Bearer KEY")].

Definition shuttle_4 : URL := mkURL "https" "" "shuttle-4.estuary.tech" "" "" "".

(** A primary publisher that hands back a spec without CID. *)
Definition ipfs_without_cid (s : Setup) : @Publisher (platform s) :=
  @mkPublisher (platform s)
    (λ shard hostID shardResultPath,
       Done [] (mkStorageSpec StorageSourceIPFS
                  (shard +:+ "-host-" +:+ hostID) "",
                None)).

End Scenario.

(** ** [dashboard/api/main.go] *)

Module Dashboard.

Record Node := mkNode { ID : string; Group : Z }.
Record Link := mkLink { Source : string; Target : string }.
Record Result := mkResult { Nodes : list Node; Links : list Link }.

(** [sort.Strings] sorts in increasing byte-wise order.  The library routine
    is an unstable in-place sort; as the order is total and antisymmetric, its
    result is the unique sorted rearrangement of its argument (lemma
    [sort_Strings_unique] below), which a merge sort computes. *)
Definition sort_Strings (keys : list string) : list string :=
  merge_sort GoString.le keys.

(** [for k := range theMap] visits every key of the map exactly once, in an
    order the language leaves unspecified: [order] is a possible order of
    visit. *)
Definition range_order (theMap : gmap string (list string))
    (order : list string) : Prop :=
  order ≡ₚ (map_to_list theMap).*1.

(** The value of [theMap[node]]: the zero value (a nil slice) when absent. *)
Definition index (theMap : gmap string (list string)) (node : string)
    : list string :=
  default [] (theMap !! node).

(** [updateResult], run with the keys visited in the order [order]. *)
Definition updateResult (order : list string)
    (theMap : gmap string (list string)) : Result :=
  let result := mkResult [] [] in
  let keys := foldl (λ keys k, keys ++ [k]) [] order in
  let keys := sort_Strings keys in
  foldl
    (λ result node,
       let links := index theMap node in
       let result :=
         mkResult (Nodes result ++ [mkNode node 0]) (Links result) in
       foldl
         (λ result link,
            mkResult (Nodes result) (Links result ++ [mkLink node link]))
         result links)
    result keys.

(** A map with two nodes, for the examples. *)
Definition two_nodes : gmap string (list string) :=
  <["b" := ["a"]]> (<["a" := ["b"; "c"]]> ∅).

End Dashboard.

(** ** The functions of package strings used below

    [strings.Split] and [strings.TrimRight] are called with a one-byte
    separator and a one-byte cutset only, and are given for that case. *)

Module GoStrings.

Definition newline : ascii := "010"%char.

(** The string ["\n"]. *)
Definition nl : string := String newline "".

(** [strings.Split(s, sep)] for the one-byte separator [sep]: the pieces of
    [s] between the occurrences of [sep], one more than there are
    occurrences. *)
Fixpoint Split (s : string) (sep : ascii) : list string :=
  match s with
  | EmptyString => [""]
  | String c s' =>
      if Ascii.eqb c sep then "" :: Split s' sep
      else
        match Split s' sep with
        | [] => [String c ""]
        | part :: parts => String c part :: parts
        end
  end.

(** [strings.TrimRight(s, cutset)] for the one-byte cutset [cut]: [s]
    without its trailing occurrences of [cut]. *)
Fixpoint TrimRight (s : string) (cut : ascii) : string :=
  match s with
  | EmptyString => ""
  | String c s' =>
      let rest := TrimRight s' cut in
      if Ascii.eqb c cut && String.eqb rest "" then "" else String c rest
  end.

(** [strings.Join(parts, sep)], the inverse of [Split]. *)
Fixpoint Join (parts : list string) (sep : ascii) : string :=
  match parts with
  | [] => ""
  | [part] => part
  | part :: parts => part +:+ String sep (Join parts sep)
  end.

(** [s] holds no byte [c]. *)
Fixpoint free_of (c : ascii) (s : string) : bool :=
  match s with
  | EmptyString => true
  | String a s' => negb (Ascii.eqb a c) && free_of c s'
  end.

(** [n] line feeds. *)
Fixpoint newlines (n : nat) : string :=
  match n with
  | 0 => ""
  | S n => String newline (newlines n)
  end.

(** The text made of the given lines, each followed by a line feed. *)
Fixpoint unlines (lines : list string) : string :=
  match lines with
  | [] => ""
  | line :: lines => line +:+ String newline (unlines lines)
  end.

(** The last byte of [s] is [c]. *)
Fixpoint ends_with (c : ascii) (s : string) : bool :=
  match s with
  | EmptyString => false
  | String a EmptyString => Ascii.eqb a c
  | String a s' => ends_with c s'
  end.

End GoStrings.

(** ** [pkg/ipfs/http/httpclient.go]: tar upload and download *)

Module IpfsHttpFiles.
Import Go GoStrings.

(** What the download does to the world. *)
Inductive Event :=
| Debug (format : string) (args : list string)
| ApiGet (cid : string)
| ResClose
| Create (name : string)
| Copy (name : string)
| OutClose (name : string)
| RunCommand (command : string) (args : list string)
| Remove (name : string).

(** The answers of the surroundings to the calls of [DownloadTar]:
    [Api.Request("get", cid).Send], [os.Create], [io.Copy],
    [system.RunCommandGetResults] and [os.Remove]. *)
Record World := mkWorld {
  Send : option error;
  os_Create : option error;
  io_Copy : option error;
  RunCommandGetResults : string → list string → string * option error;
  os_Remove : option error
}.

Definition DownloadTar (w : World) (targetDir cid : string)
    : Run Event (option error) :=
  emit (ApiGet cid);;
  match Send w with
  | Some err => mret (Some err)
  | None =>
  (** from here on [res.Close()] is deferred *)
  result ← (
    let tarfilePath := targetDir +:+ "/" +:+ cid +:+ ".tar" in
    emit (Debug "Writing cid: %s tar file to %s" [cid; tarfilePath]);;
    emit (Create tarfilePath);;
    match os_Create w with
    | Some err => mret (Some err)
    | None =>
    (** from here on [outFile.Close()] is deferred *)
    result ← (
      emit (Copy tarfilePath);;
      match io_Copy w with
      | Some err => mret (Some err)
      | None =>
      emit (RunCommand "tar" ["-vxf"; tarfilePath; "-C"; targetDir]);;
      let '(_, err) :=
        RunCommandGetResults w "tar" ["-vxf"; tarfilePath; "-C"; targetDir] in
      match err with
      | Some err => mret (Some err)
      | None =>
      emit (Debug "Extracted tar file: %s" [tarfilePath]);;
      (** the result of [os.Remove] is dropped; [err] is still the error of
          the tar command *)
      emit (Remove tarfilePath);;
      let _ := os_Remove w in
      match err with
      | Some err => mret (Some err)
      | None => mret None
      end
      end
      end);
    emit (OutClose tarfilePath);;
    mret result
    end);
  emit ResClose;;
  mret result
  end.

(** [UploadTar]; [address] is [ipfsHttp.Address].  The result is [None] when
    the index expression [parts[len(parts)-2]] is out of range. *)
Definition UploadTar (w : World) (address sourceDir : string)
    : option (string * option error) :=
  let '(result, err) :=
    RunCommandGetResults w "ipfs" ["--api"; address; "add"; "-rq"; sourceDir] in
  match err with
  | Some err => Some ("", Some err)
  | None =>
      let parts := Split result newline in
      if decide (length parts ≤ 1)%nat then
        Some ("", Some (Errorf "No parts returned from ipfs add" []))
      else
        part ← parts !! (length parts - 2);
        Some (part, None)
  end.

(** The steps of [DownloadTar] that can make it fail all succeed. *)
Definition download_ok (w : World) (targetDir cid : string) : Prop :=
  Send w = None ∧ os_Create w = None ∧ io_Copy w = None ∧
  (RunCommandGetResults w "tar"
     ["-vxf"; targetDir +:+ "/" +:+ cid +:+ ".tar"; "-C"; targetDir]).2
  = None.

End IpfsHttpFiles.

(** ** The devstack scenarios ([compareOutput]) *)

Module DevstackScenarios.
Import Go GoStrings.

Definition compareOutput (output : list Byte.byte) (expectedOutput : string)
    : option error :=
  let outputStr := string_of_list_byte output in
  let outputStr := TrimRight outputStr newline in
  if decide (outputStr ≠ expectedOutput) then
    Some (Errorf "output mismatch: expected '%v' but got '%v'"
            [ArgString expectedOutput; ArgString outputStr])
  else None.

End DevstackScenarios.

(** ** The checks of the compute-node resource-limit test *)

Module ComputeNodeTest.
Import Go.

Record SeenJobRecord := mkSeenJobRecord {
  Id : string;
  CurrentJobs : Z;
  MaxJobs : Z;
  Start : Z;
  End_ : Z
}.

(** The handler of [waitUntilSeenAllJobs(expected)]. *)
Definition waitUntilSeenAllJobs (expected : Z)
    (seenJobs : list SeenJobRecord) : bool * option error :=
  (bool_decide (Z.of_nat (length seenJobs) >= expected)%Z, None).

(** The handler of [checkMaxJobs(max)]. *)
Definition checkMaxJobs (max : Z) (seenJobs : list SeenJobRecord)
    : bool * option error :=
  let seenMax :=
    foldl (λ seenMax seenJob,
             if decide (MaxJobs seenJob > seenMax)%Z then MaxJobs seenJob
             else seenMax)
          0%Z seenJobs in
  (bool_decide (seenMax ≤ max)%Z, None).

End ComputeNodeTest.

(** ** Readings of the traces of package estuary *)

Module EstuaryTrace.
Import Go Estuary.

Section Trace.
Context `{Platform}.

(** The shuttles a CAR upload was sent to, in order. *)
Definition uploads (t : list Event) : list ClientWithResponses :=
  omap (λ e, match e with ContentAddCar client _ => Some client | _ => None end)
       t.

(** The pinning requests sent, in order. *)
Definition pins (t : list Event) : list PostPinningPinsJSONRequestBody :=
  omap (λ e, match e with PinningPins body => Some body | _ => None end) t.

(** The tasks started, in order. *)
Definition spawned (t : list Event) : list (list Event) :=
  omap (λ e, match e with Spawn task => Some task | _ => None end) t.

Definition is_FileClose (e : Event) : bool :=
  match e with FileClose _ => true | _ => false end.

Definition is_BodyClose (e : Event) : bool :=
  match e with BodyClose => true | _ => false end.

(** The warning logged for a malformed endpoint. *)
Definition malformed_warning (server : string) (err : error) : Event :=
  Log WarnLevel [("error", FErr (Some err)); ("URL", FStr server)]
      "Estuary server URL malformed".

(** The warnings for the endpoint strings that [url.Parse] rejects, in the
    order of the config. *)
Definition malformed_warnings (servers : list string) : list Event :=
  omap (λ server,
          match url_Parse server with
          | inl _ => None
          | inr err => Some (malformed_warning server err)
          end)
       servers.

(** What is seen of an upload to [client] that ends in a transport error. *)
Definition failed_attempt (carFile : string) (client : ClientWithResponses)
    : list Event :=
  [FileOpen carFile;
   ContentAddCar client "multipart/form-data";
   Log ErrorLevel
     [("error",
       FErr (PostContentAddCarWithBodyWithResponse client
               "multipart/form-data").2)]
     "failed to upload to Estuary host"].

(** The upload to [client] ends in a transport error. *)
Definition upload_fails (client : ClientWithResponses) : Prop :=
  is_Some (PostContentAddCarWithBodyWithResponse client
             "multipart/form-data").2.

End Trace.

End EstuaryTrace.

(** ** [pkg/publisher/estuary]: [IsInstalled] and the constructors *)

Module EstuaryInstalled.
Import Go Estuary.

Section Installed.
Context `{Platform}.

(** [GetCollectionsWithResponse] of the generated client. *)
Variable GetCollectionsWithResponse :
  ClientWithResponses → APIResponse * option error.

Definition GetGatewayClient (config : EstuaryPublisherConfig)
    : ClientWithResponses + error :=
  let authorizer := makeAuthorizer (APIKey config) in
  NewClientWithResponses getGatewayURL authorizer.

Definition NewEstuaryPublisher (config : EstuaryPublisherConfig)
    : Run Event (option EstuaryPublisherConfig * option error) :=
  if decide (APIKey config = "") then
    mret (None, Some (Errorf "APIKey is required" []))
  else
    log DebugLevel [] "Estuary publisher initialized";;
    mret (Some config, None).

Definition NewEstuaryPinner (publisher : Publisher)
    (config : EstuaryPublisherConfig) : option EstuaryPinner * option error :=
  match GetGatewayClient config with
  | inr err => (None, Some err)
  | inl client => (Some (mkEstuaryPinner publisher client), None)
  end.

(** [EstuaryPublisher.IsInstalled]. *)
Definition EstuaryPublisher_IsInstalled
    (estuaryPublisher : EstuaryPublisherConfig) : bool * option error :=
  match GetGatewayClient estuaryPublisher with
  | inr err => (false, Some err)
  | inl client =>
      let '(response, err) := GetCollectionsWithResponse client in
      (bool_decide (APIStatusCode response = http_StatusOK), err)
  end.

(** [EstuaryPinner.IsInstalled]; [ipfsIsInstalled] is the run of
    [e.ipfsPublisher.IsInstalled(ctx)]. *)
Definition EstuaryPinner_IsInstalled
    (ipfsIsInstalled : Run Event (bool * option error)) (e : EstuaryPinner)
    : Run Event (bool * option error) :=
  '(isIpfsInstalled, err) ← ipfsIsInstalled;
  if negb (isNil err) || negb isIpfsInstalled then
    mret (isIpfsInstalled, err)
  else
    let '(response, err) := GetCollectionsWithResponse (apiClient e) in
    match err with
    | Some err => mret (false, Some err)
    | None =>
        mret (bool_decide (APIStatusCode response = http_StatusOK), None)
    end.

End Installed.

End EstuaryInstalled.

(** ** [dashboard/api/main.go]: the polling loop *)

Module DashboardPoll.
Import Dashboard.

(** What the polling loop of [main] does, under the mutex, with the id
    [newID] of a server and the peer lists [newList] it has answered:
    [theMap[newID] = newList["bacalhau-job-event"]], then
    [sort.Strings(theMap[newID])], which sorts the stored slice in place. *)
Definition record_peers (theMap : gmap string (list string))
    (newID : string) (newList : gmap string (list string))
    : gmap string (list string) :=
  let theMap := <[newID := index newList "bacalhau-job-event"]> theMap in
  <[newID := sort_Strings (index theMap newID)]> theMap.

(** The order of links by source and then by target. *)
Definition link_le (l1 l2 : Link) : Prop :=
  (GoString.le (Source l1) (Source l2) ∧ Source l1 ≠ Source l2) ∨
  (Source l1 = Source l2 ∧ GoString.le (Target l1) (Target l2)).

(** Every peer list of the map is sorted. *)
Definition peers_sorted (theMap : gmap string (list string)) : Prop :=
  map_Forall (λ _ peers, Sorted GoString.le peers) theMap.

End DashboardPoll.

(** ** Further scenarios *)

Module MoreScenarios.
Import Go Estuary Scenario.

(** A world in which [ipfs add -rq] and [tar] print [output]. *)
Definition command_prints (output : string) : IpfsHttpFiles.World :=
  IpfsHttpFiles.mkWorld None None None (λ command args, (output, None)) None.

(** The world of [Scenario.platform], with [os.Open] and [json.Unmarshal]
    scripted as well. *)
Definition platform_with (s : Setup) (open : string → () + error)
    (unmarshal : list Byte.byte → EstuaryAPIConfig + error) : Platform := {|
  os_Getenv := @os_Getenv (platform s);
  os_MkdirTemp := @os_MkdirTemp (platform s);
  os_Open := open;
  filepath_Join := @filepath_Join (platform s);
  url_Parse := @url_Parse (platform s);
  url_String := @url_String (platform s);
  json_Unmarshal := unmarshal;
  http_NewRequest_error := @http_NewRequest_error (platform s);
  Rng := @Rng (platform s);
  rand_Intn := @rand_Intn (platform s);
  rand_Intn_lt := @rand_Intn_lt (platform s);
  Client := @Client (platform s);
  Server := @Server (platform s);
  NewClient := @NewClient (platform s);
  applyEditors := @applyEditors (platform s);
  Client_Do := @Client_Do (platform s);
  ClientWithResponses := @ClientWithResponses (platform s);
  NewClientWithResponses := @NewClientWithResponses (platform s);
  PostContentAddCarWithBodyWithResponse :=
    @PostContentAddCarWithBodyWithResponse (platform s);
  PostPinningPinsWithResponse := @PostPinningPinsWithResponse (platform s);
  JobShard := @JobShard (platform s);
  car_CreateCar := @car_CreateCar (platform s);
  GetPublishedStorageSpec := @GetPublishedStorageSpec (platform s)
|}.

Definition refused : APIResponse * option error :=
  (mkAPIResponse 0, Some (LibError "connection refused")).

(** Shuttles 4 and 5 refuse the connection, every other shuttle accepts. *)
Definition two_down : Setup :=
  mkSetup no_env (serve [viewer_bytes] false)
    (λ server,
       if decide (server = "https://shuttle-4.estuary.tech/"
                  ∨ server = "https://shuttle-5.estuary.tech/")
       then refused else accepted)
    (λ _, accepted) [].

(** Every shuttle refuses the connection. *)
Definition all_down : Setup :=
  mkSetup no_env (serve [viewer_bytes] false) (λ _, refused) (λ _, accepted)
    [].

(** The pinning service answers every request with status 500. *)
Definition pin_rejected : Setup :=
  mkSetup no_env (serve [viewer_bytes] false) (λ _, accepted)
    (λ _, server_error) [].

(** The CAR file cannot be opened. *)
Definition unreadable_car : Platform :=
  platform_with healthy (λ name, inr (LibError "permission denied"))
    demo_Unmarshal.

(** The upload target forced by the environment is not a URL. *)
Definition bad_override : Setup :=
  mkSetup
    (λ name,
       if decide (name = "BACALHAU_ESTUARY_WRITE_API_URL") then ":" else "")
    gateway_down (λ _, accepted) (λ _, accepted) [].

(** The gateway answers without a content length. *)
Definition chunked_gateway : Setup :=
  mkSetup no_env
    (λ req, inl (mkResponse 200 (-1) (mkBody [viewer_bytes] false)))
    (λ _, accepted) (λ _, accepted) [].

(** The gateway answers with a config that [decoded] stands for. *)
Definition gateway_says (decoded : EstuaryAPIConfig) : Platform :=
  platform_with healthy (λ name, inl ())
    (λ data,
       if decide (string_of_list_byte data = viewer_json) then inl decoded
       else inr (LibError "unexpected end of JSON input")).

Definition uploads_disabled : EstuaryAPIConfig :=
  mkEstuaryAPIConfig true ["https://shuttle-4.estuary.tech"].

Definition no_endpoints : EstuaryAPIConfig := mkEstuaryAPIConfig false [].

(** An IPFS node with two local addresses. *)
Definition two_addresses : IpfsHttp.IPFSHttpClient string :=
  IpfsHttp.Build_IPFSHttpClient
    (["/ip4/127.0.0.1/tcp/4001"; "/ip4/10.0.0.7/tcp/4001"], None)
    ("QmPeer", None).

(** What a third server answers to [/peers]. *)
Definition peers_of_c : gmap string (list string) :=
  {["bacalhau-job-event" := ["b"; "a"]]}.

End MoreScenarios.

(** * Properties *)

(** ** The order on Go strings is a total order *)

Section GoStringOrder.
Import GoString.

Lemma ascii_compare_refl (a : ascii) : Ascii.compare a a = Eq.
Proof. unfold Ascii.compare. apply N.compare_refl. Qed.

Lemma ascii_compare_lt_trans (a b c : ascii) :
  Ascii.compare a b = Lt → Ascii.compare b c = Lt → Ascii.compare a c = Lt.
Proof.
  unfold Ascii.compare. rewrite !N.compare_lt_iff. apply N.lt_trans.
Qed.

Lemma compare_refl (s : string) : String.compare s s = Eq.
Proof.
  induction s as [|a s IH]; simpl; [done|].
  by rewrite ascii_compare_refl.
Qed.

Lemma compare_lt_trans (s1 s2 s3 : string) :
  String.compare s1 s2 = Lt → String.compare s2 s3 = Lt →
  String.compare s1 s3 = Lt.
Proof.
  revert s2 s3. induction s1 as [|a s1 IH]; intros [|b s2] [|c s3]; simpl;
    try done.
  destruct (Ascii.compare a b) eqn:Hab; try done.
  - apply Ascii.compare_eq_iff in Hab as ->.
    destruct (Ascii.compare b c) eqn:Hbc; try done. apply IH.
  - destruct (Ascii.compare b c) eqn:Hbc; try done.
    + apply Ascii.compare_eq_iff in Hbc as ->. by rewrite Hab.
    + by rewrite (ascii_compare_lt_trans a b c).
Qed.

Lemma le_alt (s1 s2 : string) :
  le s1 s2 ↔ String.compare s1 s2 = Lt ∨ s1 = s2.
Proof.
  unfold le, String.leb. split.
  - destruct (String.compare s1 s2) eqn:H; try done.
    + right. by apply String.compare_eq_iff.
    + by left.
  - intros [->| ->]; [done|]. by rewrite compare_refl.
Qed.

#[global] Instance le_refl : Reflexive le.
Proof. intros s. apply le_alt. by right. Qed.

#[global] Instance le_trans : Transitive le.
Proof.
  intros s1 s2 s3. rewrite !le_alt.
  intros [H12| ->] [H23| ->]; eauto using compare_lt_trans.
Qed.

#[global] Instance le_antisym : AntiSymm (=) le.
Proof. intros s1 s2. apply String.leb_antisym. Qed.

#[global] Instance le_total : Total le.
Proof. intros s1 s2. apply String.leb_total. Qed.

End GoStringOrder.

(** ** [updateResult] does not depend on the order of map iteration *)

Section DashboardProps.
Import Dashboard.

Lemma collect_keys (acc order : list string) :
  foldl (λ keys k, keys ++ [k]) acc order = acc ++ order.
Proof.
  revert acc. induction order as [|k order IH]; intros acc; simpl.
  - by rewrite app_nil_r.
  - by rewrite IH, <-app_assoc.
Qed.

Lemma append_links (node : string) (links : list string) (r : Result) :
  foldl (λ result link,
           mkResult (Nodes result) (Links result ++ [mkLink node link]))
        r links
  = mkResult (Nodes r) (Links r ++ (mkLink node <$> links)).
Proof.
  revert r. induction links as [|l links IH]; intros [ns ls]; simpl.
  - by rewrite app_nil_r.
  - rewrite IH. simpl. by rewrite <-app_assoc.
Qed.

Lemma append_nodes (theMap : gmap string (list string))
    (keys : list string) (r : Result) :
  foldl
    (λ result node,
       let links := index theMap node in
       let result :=
         mkResult (Nodes result ++ [mkNode node 0]) (Links result) in
       foldl
         (λ result link,
            mkResult (Nodes result) (Links result ++ [mkLink node link]))
         result links)
    r keys
  = mkResult (Nodes r ++ ((λ k, mkNode k 0) <$> keys))
             (Links r ++ (keys ≫= λ k, mkLink k <$> index theMap k)).
Proof.
  revert r. induction keys as [|k keys IH]; intros [ns ls]; simpl.
  - by rewrite !app_nil_r.
  - rewrite append_links, IH. simpl. by rewrite <-!app_assoc.
Qed.

Lemma updateResult_unfold (order : list string)
    (theMap : gmap string (list string)) :
  updateResult order theMap
  = mkResult ((λ k, mkNode k 0) <$> sort_Strings order)
             (sort_Strings order ≫= λ k, mkLink k <$> index theMap k).
Proof. unfold updateResult. by rewrite collect_keys, append_nodes. Qed.

Lemma sort_Strings_sorted (keys : list string) :
  Sorted GoString.le (sort_Strings keys).
Proof. apply (Sorted_merge_sort GoString.le). Qed.

Lemma sort_Strings_perm (keys : list string) : sort_Strings keys ≡ₚ keys.
Proof. apply merge_sort_Permutation. Qed.

(** Whatever algorithm the sort uses, its result is this list. *)
Lemma sort_Strings_unique (keys sorted : list string) :
  Sorted GoString.le sorted → sorted ≡ₚ keys → sorted = sort_Strings keys.
Proof.
  intros Hs Hp. apply (Sorted_unique GoString.le).
  - done.
  - apply sort_Strings_sorted.
  - by rewrite sort_Strings_perm.
Qed.

Lemma sort_Strings_order (keys keys' : list string) :
  keys ≡ₚ keys' → sort_Strings keys = sort_Strings keys'.
Proof.
  intros Hp. apply sort_Strings_unique.
  - apply sort_Strings_sorted.
  - by rewrite sort_Strings_perm.
Qed.

Lemma node_ids (keys : list string) :
  ID <$> ((λ k, mkNode k 0) <$> keys) = keys.
Proof. rewrite <-list_fmap_compose. apply list_fmap_id. Qed.

(** C10. For every map and every two orders in which [range] may visit its
    keys, [updateResult] returns the same result; the ids of the nodes of
    that result are exactly the keys of the map, each once, in increasing
    lexicographic order, every node has group 0, and the links are, node by
    node in that order, the targets stored for the node, in the stored
    order. *)
Theorem updateResult_deterministic (theMap : gmap string (list string))
    (order order' : list string) :
  range_order theMap order →
  range_order theMap order' →
  updateResult order' theMap = updateResult order theMap ∧
  (∀ k, k ∈ ID <$> Nodes (updateResult order theMap)
        ↔ is_Some (theMap !! k)) ∧
  NoDup (ID <$> Nodes (updateResult order theMap)) ∧
  Sorted GoString.le (ID <$> Nodes (updateResult order theMap)) ∧
  Forall (λ n, Group n = 0%Z) (Nodes (updateResult order theMap)) ∧
  Links (updateResult order theMap)
  = Nodes (updateResult order theMap)
      ≫= (λ n, mkLink (ID n) <$> index theMap (ID n)).
Proof.
  unfold range_order. intros Ho Ho'.
  rewrite !updateResult_unfold. simpl. rewrite node_ids.
  assert (sort_Strings order ≡ₚ (map_to_list theMap).*1) as Hs
    by by rewrite sort_Strings_perm.
  split_and!.
  - f_equal; by rewrite (sort_Strings_order order' order) by by rewrite Ho, Ho'.
  - intros k. rewrite Hs, list_elem_of_fmap. split.
    + intros [[k' v] [-> Hin]]. apply elem_of_map_to_list in Hin. by exists v.
    + intros [v Hv]. exists (k, v). split; [done|].
      by apply elem_of_map_to_list.
  - rewrite Hs. apply NoDup_fst_map_to_list.
  - apply sort_Strings_sorted.
  - apply Forall_fmap, Forall_true. done.
  - clear Hs. induction (sort_Strings order) as [|k ks IH]; [done|].
    rewrite fmap_cons, !bind_cons. simpl. by rewrite IH.
Qed.

(** A map with two nodes, visited in the two possible orders. *)
Lemma updateResult_deterministic_witness :
  updateResult ["a"; "b"] two_nodes = updateResult ["b"; "a"] two_nodes ∧
  updateResult ["b"; "a"] two_nodes
  = mkResult [mkNode "a" 0; mkNode "b" 0]
             [mkLink "a" "b"; mkLink "a" "c"; mkLink "b" "a"].
Proof.
  split; [|by vm_compute].
  apply (updateResult_deterministic two_nodes ["b"; "a"] ["a"; "b"]).
  - unfold range_order. vm_compute. apply perm_swap.
  - unfold range_order. vm_compute. reflexivity.
Defined.

End DashboardProps.

(** ** The address getters of the IPFS client swallow every error *)

Section IpfsHttpProps.
Import Go IpfsHttp.

Context {Multiaddr : Type} (Multiaddr_String : Multiaddr → string).

Lemma collect_strings {A} (f : A → string) (acc : list string) (l : list A) :
  foldl (λ acc x, acc ++ [f x]) acc l = acc ++ (f <$> l).
Proof.
  revert acc. induction l as [|x l IH]; intros acc; simpl.
  - by rewrite app_nil_r.
  - by rewrite IH, <-app_assoc.
Qed.

Lemma GetLocalAddrStrings_ok (ipfsHttp : IPFSHttpClient Multiaddr) :
  (Swarm_LocalAddrs ipfsHttp).2 = None →
  GetLocalAddrStrings Multiaddr_String ipfsHttp
  = (Multiaddr_String <$> (Swarm_LocalAddrs ipfsHttp).1, None).
Proof.
  unfold GetLocalAddrStrings, GetLocalAddrs.
  destruct (Swarm_LocalAddrs ipfsHttp) as [addrs [e|]]; simpl; [done|].
  intros _. by rewrite collect_strings.
Qed.

Lemma GetLocalAddrStrings_failed (ipfsHttp : IPFSHttpClient Multiaddr) :
  is_Some (Swarm_LocalAddrs ipfsHttp).2 →
  GetLocalAddrStrings Multiaddr_String ipfsHttp = ([], None).
Proof.
  unfold GetLocalAddrStrings, GetLocalAddrs.
  destruct (Swarm_LocalAddrs ipfsHttp) as [addrs [e|]]; simpl; [done|].
  by intros [? ?].
Qed.

Lemma GetSwarmAddresses_failed (ipfsHttp : IPFSHttpClient Multiaddr) :
  is_Some (Swarm_LocalAddrs ipfsHttp).2 ∨ is_Some (Key_Self ipfsHttp).2 →
  GetSwarmAddresses Multiaddr_String ipfsHttp = ([], None).
Proof.
  unfold GetSwarmAddresses, GetPeerId.
  destruct (Swarm_LocalAddrs ipfsHttp) as [addrs [e|]] eqn:Hl.
  - intros _. rewrite GetLocalAddrStrings_failed by (rewrite Hl; by eexists).
    by destruct (Key_Self ipfsHttp) as [key [e'|]].
  - rewrite GetLocalAddrStrings_ok by (by rewrite Hl).
    destruct (Key_Self ipfsHttp) as [key [e|]]; simpl; [done|].
    intros [H|H]; by destruct H.
Qed.

(** C9. [GetLocalAddrStrings] and [GetSwarmAddresses] return a nil error
    whatever the IPFS node answers.  When the lookup of the local addresses
    fails both return the empty list, and when the lookup of the own key
    fails [GetSwarmAddresses] returns the empty list: the very result
    obtained from a node that has no address at all. *)
Theorem address_getters_swallow_errors (ipfsHttp : IPFSHttpClient Multiaddr) :
  (GetLocalAddrStrings Multiaddr_String ipfsHttp).2 = None ∧
  (GetSwarmAddresses Multiaddr_String ipfsHttp).2 = None ∧
  (is_Some (Swarm_LocalAddrs ipfsHttp).2 →
     GetLocalAddrStrings Multiaddr_String ipfsHttp = ([], None) ∧
     GetLocalAddrStrings Multiaddr_String ipfsHttp
     = GetLocalAddrStrings Multiaddr_String
         (Build_IPFSHttpClient ([], None) (Key_Self ipfsHttp))) ∧
  (is_Some (Swarm_LocalAddrs ipfsHttp).2 ∨ is_Some (Key_Self ipfsHttp).2 →
     GetSwarmAddresses Multiaddr_String ipfsHttp = ([], None) ∧
     ∀ peerId,
       GetSwarmAddresses Multiaddr_String ipfsHttp
       = GetSwarmAddresses Multiaddr_String
           (Build_IPFSHttpClient ([], None) (peerId, None))).
Proof.
  split_and!.
  - unfold GetLocalAddrStrings.
    destruct (GetLocalAddrs ipfsHttp) as [addrs [e|]]; done.
  - unfold GetSwarmAddresses.
    destruct (GetLocalAddrStrings _ _) as [addresses [e|]]; [done|].
    destruct (GetPeerId _) as [peerId [e|]]; done.
  - intros Hf. by rewrite GetLocalAddrStrings_failed.
  - intros Hf. by rewrite GetSwarmAddresses_failed.
Qed.

End IpfsHttpProps.

(** A node whose swarm lookup fails after it had produced an address, and a
    node whose key lookup fails. *)
Lemma address_getters_swallow_errors_witness :
  IpfsHttp.GetLocalAddrStrings id
    (IpfsHttp.Build_IPFSHttpClient
       (["/ip4/127.0.0.1/tcp/4001"], Some (Go.LibError "connection refused"))
       ("QmPeer", None))
  = ([], None) ∧
  IpfsHttp.GetSwarmAddresses id
    (IpfsHttp.Build_IPFSHttpClient
       (["/ip4/127.0.0.1/tcp/4001"], None)
       ("", Some (Go.LibError "connection refused")))
  = ([], None).
Proof.
  split.
  - apply (address_getters_swallow_errors id). simpl. by eexists.
  - apply (address_getters_swallow_errors id). right. simpl. by eexists.
Defined.

(** ** The Estuary endpoints *)

Section EstuaryEndpoints.
Import Go Estuary.
Context `{Platform}.

(** *** The shuffle *)

Lemma swapURLs_perm (i j : nat) (uploadURLs : list URL) :
  i < length uploadURLs → j < length uploadURLs →
  ∃ swapped, swapURLs i j uploadURLs = Some swapped ∧ swapped ≡ₚ uploadURLs.
Proof.
  intros [ui Hi]%lookup_lt_is_Some [uj Hj]%lookup_lt_is_Some.
  exists (<[j := ui]> (<[i := uj]> uploadURLs)). split.
  - unfold swapURLs. by rewrite Hi, Hj.
  - by apply Permutation_insert_swap.
Qed.

Lemma Shuffle_from_S {S : Type} (i : nat) (swap : nat → nat → S → option S)
    (g : Rng) (s : S) :
  Shuffle_from (Datatypes.S i) swap g s
  = (let '(j, g) := rand_Intn g (Datatypes.S i + 1) in
     s ← swap (Datatypes.S i) j s; Shuffle_from i swap g s).
Proof. reflexivity. Qed.

Lemma Shuffle_from_perm (i : nat) (g : Rng) (uploadURLs : list URL) :
  i < length uploadURLs ∨ i = 0 →
  ∃ shuffled g',
    Shuffle_from i swapURLs g uploadURLs = Some (shuffled, g') ∧
    shuffled ≡ₚ uploadURLs.
Proof.
  revert g uploadURLs. induction i as [|i IH]; intros g l Hi.
  - by exists l, g.
  - destruct Hi as [Hi|?]; [|lia]. rewrite Shuffle_from_S.
    pose proof (rand_Intn_lt g (S i + 1) ltac:(lia)) as Hj.
    destruct (rand_Intn g (S i + 1)) as [j g1]. simpl in Hj.
    destruct (swapURLs_perm (S i) j l) as (l1 & -> & Hl1); [lia..|]. simpl.
    destruct (IH g1 l1) as (l2 & g2 & -> & Hl2).
    { left. rewrite Hl1. lia. }
    exists l2, g2. split; [done|]. by rewrite Hl2.
Qed.

(** [rand.Shuffle] with the closure of [GetShuttleClients] never panics and
    rearranges the slice. *)
Lemma rand_Shuffle_perm (g : Rng) (uploadURLs : list URL) :
  ∃ shuffled g',
    rand_Shuffle (length uploadURLs) swapURLs g uploadURLs
    = Some (shuffled, g') ∧
    shuffled ≡ₚ uploadURLs.
Proof. apply Shuffle_from_perm. destruct uploadURLs; simpl; lia. Qed.

(** What the closure does to the list when both indices are in range. *)
Lemma swap_places (i j : nat) (l : list URL) (x y : URL) :
  l !! i = Some y → l !! j = Some x → (j ≤ i)%nat →
  swapURLs i j l = Some (<[j := y]> (<[i := x]> l)) ∧
  <[j := y]> (<[i := x]> l) !! i = Some x ∧
  drop (S i) (<[j := y]> (<[i := x]> l)) = drop (S i) l ∧
  take (S i) (<[j := y]> (<[i := x]> l)) ≡ₚ take (S i) l.
Proof.
  intros Hi Hj Hle.
  pose proof (lookup_lt_Some _ _ _ Hi) as Hilt.
  split_and!.
  - unfold swapURLs. by rewrite Hi, Hj.
  - destruct (decide (j = i)) as [->|Hne].
    + rewrite list_lookup_insert_eq by (by rewrite length_insert).
      congruence.
    + rewrite list_lookup_insert_ne by done.
      by rewrite list_lookup_insert_eq.
  - by rewrite !drop_insert_lt by lia.
  - rewrite !take_insert_lt by lia.
    apply Permutation_insert_swap; rewrite lookup_take_lt by lia; done.
Qed.

Lemma draws_from_S (i : nat) (g : Rng) :
  draws_from (S i) g
  = (let '(j, g) := rand_Intn g (S i + 1) in
     let '(js, g) := draws_from i g in
     (j :: js, g)).
Proof. done. Qed.

(** The shuffle leaves the source in the state after its draws. *)
Lemma Shuffle_from_state (i : nat) (g g' : Rng)
    (uploadURLs shuffled : list URL) :
  Shuffle_from i swapURLs g uploadURLs = Some (shuffled, g') →
  g' = (draws_from i g).2.
Proof.
  revert g uploadURLs. induction i as [|i IH]; intros g l.
  - by intros [= _ <-].
  - rewrite Shuffle_from_S, draws_from_S.
    destruct (rand_Intn g (S i + 1)) as [j g1].
    destruct (swapURLs (S i) j l) as [l1|]; [|done]. simpl.
    intros ->%IH. by destruct (draws_from i g1).
Qed.

(** Every rearrangement of the places the shuffle still has to fill is the
    outcome for some draws within their bounds, from whatever source
    delivers them. *)
Lemma Shuffle_from_follows (i : nat) (l target : list URL) :
  length l = length target → (S i ≤ length l)%nat →
  drop (S i) l = drop (S i) target →
  take (S i) l ≡ₚ take (S i) target →
  ∃ draws,
    length draws = i ∧
    (∀ k j, draws !! k = Some j → (j + k ≤ i)%nat) ∧
    ∀ g, (draws_from i g).1 = draws →
      Shuffle_from i swapURLs g l = Some (target, (draws_from i g).2).
Proof.
  revert l. induction i as [|i IH]; intros l Hlen Hi Hdrop Htake.
  - exists []. split_and!; [done|done|]. intros g _. simpl. do 2 f_equal.
    destruct l as [|x l], target as [|y target]; simpl in *; try lia.
    apply Permutation_singleton_l in Htake. rewrite !drop_0 in Hdrop.
    rewrite take_0 in Htake. congruence.
  - destruct (lookup_lt_is_Some_2 target (S i)) as [x Hx]; [lia|].
    destruct (lookup_lt_is_Some_2 l (S i)) as [y Hy]; [lia|].
    assert (x ∈ take (S (S i)) l) as [j Hj]%list_elem_of_lookup.
    { rewrite Htake. apply list_elem_of_lookup. exists (S i).
      by rewrite lookup_take_lt by lia. }
    apply lookup_take_Some in Hj as [Hj Hjlt].
    destruct (swap_places (S i) j l x y) as (Hswap & Hat & Hd & Ht);
      [done|done|lia|].
    destruct (IH (<[j := y]> (<[S i := x]> l)))
      as (draws & Hdraws & Hbounds & Hrun).
    + by rewrite !length_insert.
    + rewrite !length_insert. lia.
    + rewrite (drop_S _ x (S i)) by done.
      rewrite (drop_S target x (S i)) by done. by rewrite Hd, Hdrop.
    + apply (inj (.++ [x])).
      rewrite <-(take_S_r _ _ x) by done.
      rewrite <-(take_S_r target _ x) by done. by rewrite Ht.
    + exists (j :: draws). split_and!.
      * simpl. by rewrite Hdraws.
      * intros [|k] j'; simpl.
        -- intros [= <-]. lia.
        -- intros Hk%Hbounds. lia.
      * intros g. rewrite Shuffle_from_S, draws_from_S.
        destruct (rand_Intn g (S i + 1)) as [j0 g1].
        specialize (Hrun g1). destruct (draws_from i g1) as [js g2].
        simpl in *. intros [= -> ->]. rewrite Hswap. simpl. by apply Hrun.
Qed.

(** The same for [rand.Shuffle] on the whole list. *)
Lemma rand_Shuffle_follows (uploadURLs target : list URL) :
  target ≡ₚ uploadURLs →
  ∃ draws,
    length draws = length uploadURLs - 1 ∧
    (∀ k j, draws !! k = Some j → (j + k < length uploadURLs)%nat) ∧
    ∀ g, (Shuffle_draws (length uploadURLs) g).1 = draws →
      rand_Shuffle (length uploadURLs) swapURLs g uploadURLs
      = Some (target, (Shuffle_draws (length uploadURLs) g).2).
Proof.
  intros Hperm. unfold rand_Shuffle, Shuffle_draws.
  destruct uploadURLs as [|u us].
  - apply Permutation_nil_r in Hperm as ->. exists [].
    split_and!; [done|done|]. by intros g _.
  - pose proof (Permutation_length Hperm) as Hlen. simpl in Hlen.
    destruct (Shuffle_from_follows (length us) (u :: us) target)
      as (draws & Hdraws & Hbounds & Hrun).
    + done.
    + simpl. lia.
    + rewrite !drop_ge by (simpl; lia). done.
    + change (take (S (length us)) (u :: us) ≡ₚ take (S (length us)) target).
      rewrite !take_ge by (simpl; lia). done.
    + exists draws. simpl. rewrite Nat.sub_0_r. split_and!; [done| |done].
      intros k j Hk%Hbounds. lia.
Qed.

(** The client loop keeps the order of the URLs. *)
Lemma appendClients_ok (authorizer : RequestEditorFn) (uploadURLs : list URL)
    (clients result : list ClientWithResponses) :
  appendClients authorizer uploadURLs clients = (result, None) →
  ∃ new, result = clients ++ new ∧
    Forall2 (λ url client,
               NewClientWithResponses (url_String url) authorizer
               = inl client)
            uploadURLs new.
Proof.
  revert clients. induction uploadURLs as [|u us IH]; intros clients; simpl.
  - intros [= <-]. exists []. by rewrite app_nil_r.
  - destruct (NewClientWithResponses _ _) as [c|e] eqn:Hc; [|done].
    intros (new & -> & Hnew)%IH. exists (c :: new).
    split; [by rewrite <-app_assoc|]. by constructor.
Qed.

(** *** Runs *)

Lemma trace_bind {A B} (m : Run Event A) (f : A → Run Event B) :
  trace (m ≫= f)
  = trace m ++ match returned m with Some a => trace (f a) | None => [] end.
Proof.
  destruct m as [t a|t r]; simpl; [|by rewrite app_nil_r].
  unfold mbind, Run_mbind. simpl. by destruct (f a).
Qed.

Lemma returned_bind {A B} (m : Run Event A) (f : A → Run Event B) :
  returned (m ≫= f) = returned m ≫= λ a, returned (f a).
Proof.
  destruct m as [t a|t r]; [|done].
  unfold mbind, Run_mbind, option_bind. simpl. by destruct (f a).
Qed.

Lemma requests_app (t1 t2 : list Event) :
  requests (t1 ++ t2) = requests t1 ++ requests t2.
Proof. apply omap_app. Qed.

(** *** The loop over the endpoints of the config *)

(** The loop never panics, sends nothing, and appends the endpoints that
    parse to the slice it is given. *)
Lemma appendUploadURLs_done (servers : list string) (uploadURLs : list URL) :
  ∃ t, appendUploadURLs servers uploadURLs
       = Done t (uploadURLs ++ parsedEndpoints servers) ∧
       requests t = [].
Proof.
  revert uploadURLs. induction servers as [|server servers IH];
    intros uploadURLs.
  - exists []. by rewrite app_nil_r.
  - unfold parsedEndpoints. simpl. destruct (url_Parse server) as [u|e].
    + destruct (IH (uploadURLs ++ [u])) as (t & -> & Ht).
      exists t. by rewrite <-app_assoc.
    + destruct (IH uploadURLs) as (t & -> & Ht). simpl. eauto.
Qed.

(** A malformed endpoint is logged at warning level and the loop goes on. *)
Lemma appendUploadURLs_malformed (server : string) (servers : list string)
    (uploadURLs : list URL) (err : error) :
  url_Parse server = inr err →
  appendUploadURLs (server :: servers) uploadURLs
  = (log WarnLevel [("error", FErr (Some err)); ("URL", FStr server)]
         "Estuary server URL malformed";;
     appendUploadURLs servers uploadURLs).
Proof. intros Hp. simpl. by rewrite Hp. Qed.

(** *** [getWriteAPIURLs] *)

(** C6. When [BACALHAU_ESTUARY_WRITE_API_URL] holds a non-empty string that
    [url.Parse] accepts, [getWriteAPIURLs] logs the host at debug level and
    returns the one parsed URL with a nil error; no request is sent to the
    gateway. *)
Theorem getWriteAPIURLs_env_override (client : Client) (baseURL : string)
    (parsedURL : URL) :
  os_Getenv "BACALHAU_ESTUARY_WRITE_API_URL" = baseURL →
  baseURL ≠ "" →
  url_Parse baseURL = inl parsedURL →
  getWriteAPIURLs client
  = Done [Log DebugLevel [("Host", FStr baseURL)]
              "Using env-defined Estuary upload host"]
         ([parsedURL], None) ∧
  requests (trace (getWriteAPIURLs client)) = [].
Proof.
  intros Henv Hne Hparse. unfold getWriteAPIURLs. rewrite Henv.
  destruct (decide (baseURL ≠ "")) as [_|?]; [|done].
  rewrite Hparse. by split.
Qed.

(** The run of [getWriteAPIURLs] once the gateway has answered the config
    request with a body that one [Read] delivers in full. *)
Lemma getWriteAPIURLs_config (client : Client) (req : Request)
    (resp : Response) (data : list Byte.byte) (rest : Body)
    (config : EstuaryAPIConfig) :
  os_Getenv "BACALHAU_ESTUARY_WRITE_API_URL" = "" →
  http_NewRequest_error "GET" (Server client +:+ "/viewier") = None →
  applyEditors client (mkRequest "GET" (Server client +:+ "/viewier") [])
  = (req, None) →
  Client_Do client req = inl resp →
  (0 ≤ ContentLength resp)%Z →
  Body_Read (ResponseBody resp)
    (replicate (Z.to_nat (ContentLength resp)) Byte.x00)
  = (data, Z.to_nat (ContentLength resp), None, rest) →
  json_Unmarshal data = inl config →
  ContentAddingDisabled config = false →
  ∃ t, getWriteAPIURLs client
       = Done (HTTPDo req :: t ++ [BodyClose])
              (replicate (length (UploadEndpoints config)) URL_zero
                 ++ parsedEndpoints (UploadEndpoints config),
               None) ∧
       requests t = [].
Proof.
  intros Henv Hnew Hedit Hdo Hlen Hread Hjson Hdis.
  unfold getWriteAPIURLs. rewrite Henv, Hnew, Hedit, Hdo, Hread.
  destruct (decide ("" ≠ "")) as [?|_]; [done|].
  destruct (decide (ContentLength resp < 0)%Z) as [?|_]; [lia|].
  destruct (decide (Z.of_nat (Z.to_nat (ContentLength resp))
                    ≠ ContentLength resp)) as [?|_]; [lia|].
  rewrite Hjson, Hdis.
  destruct (appendUploadURLs_done (UploadEndpoints config)
              (replicate (length (UploadEndpoints config)) URL_zero))
    as (t & Hrun & Ht).
  exists t. split; [|done]. rewrite Hrun. simpl. by rewrite app_nil_r.
Qed.

(** C3. Once the config has been fetched and decoded, the list returned
    by [getWriteAPIURLs] is made of as many zero-valued URLs as the config
    has endpoint strings, followed by the endpoints that parse: the slice is
    created with that length and then appended to.  With a non-empty
    endpoint list it is therefore not the list of the parsed endpoints. *)
Theorem getWriteAPIURLs_zero_entries (client : Client) (req : Request)
    (resp : Response) (data : list Byte.byte) (rest : Body)
    (config : EstuaryAPIConfig) :
  os_Getenv "BACALHAU_ESTUARY_WRITE_API_URL" = "" →
  http_NewRequest_error "GET" (Server client +:+ "/viewier") = None →
  applyEditors client (mkRequest "GET" (Server client +:+ "/viewier") [])
  = (req, None) →
  Client_Do client req = inl resp →
  (0 ≤ ContentLength resp)%Z →
  Body_Read (ResponseBody resp)
    (replicate (Z.to_nat (ContentLength resp)) Byte.x00)
  = (data, Z.to_nat (ContentLength resp), None, rest) →
  json_Unmarshal data = inl config →
  ContentAddingDisabled config = false →
  returned (getWriteAPIURLs client)
  = Some (replicate (length (UploadEndpoints config)) URL_zero
            ++ parsedEndpoints (UploadEndpoints config),
          None) ∧
  (UploadEndpoints config ≠ [] →
   replicate (length (UploadEndpoints config)) URL_zero
     ++ parsedEndpoints (UploadEndpoints config)
   ≠ parsedEndpoints (UploadEndpoints config)).
Proof.
  intros Henv Hnew Hedit Hdo Hlen Hread Hjson Hdis.
  destruct (getWriteAPIURLs_config client req resp data rest config)
    as (t & -> & _); try done.
  split; [done|]. intros Hne Heq. apply (f_equal length) in Heq.
  rewrite length_app, length_replicate in Heq.
  destruct (UploadEndpoints config); [done|]. simpl in Heq. lia.
Qed.

Lemma viewier_not_viewer (server : string) :
  server +:+ "/viewier" ≠ server +:+ "/viewer".
Proof. induction server as [|a server IH]; simpl; [done|]. by intros [=]. Qed.

(** C4. Without the upload-target override, [getWriteAPIURLs] sends one
    request to the gateway: the GET request built for the URL
    [client.Server + "/viewier"], as the request editors of the client leave
    it.  That URL is not [client.Server + "/viewer"]. *)
Theorem getWriteAPIURLs_requests_viewier (client : Client) (req : Request) :
  os_Getenv "BACALHAU_ESTUARY_WRITE_API_URL" = "" →
  http_NewRequest_error "GET" (Server client +:+ "/viewier") = None →
  applyEditors client (mkRequest "GET" (Server client +:+ "/viewier") [])
  = (req, None) →
  requests (trace (getWriteAPIURLs client)) = [req] ∧
  Server client +:+ "/viewier" ≠ Server client +:+ "/viewer".
Proof.
  intros Henv Hnew Hedit. split; [|apply viewier_not_viewer].
  unfold getWriteAPIURLs. rewrite Henv, Hnew, Hedit.
  destruct (decide ("" ≠ "")) as [?|_]; [done|].
  destruct (Client_Do client req) as [resp|err]; [|done].
  destruct (decide (ContentLength resp < 0)%Z) as [?|_]; [done|].
  destruct (Body_Read _ _) as [[[responseBody bytesRead] [err|]] body];
    [done|].
  destruct (decide (_ ≠ _)) as [?|_]; [done|].
  destruct (json_Unmarshal responseBody) as [config|err]; [|done].
  destruct (ContentAddingDisabled config); [done|].
  destruct (appendUploadURLs_done (UploadEndpoints config)
              (replicate (length (UploadEndpoints config)) URL_zero))
    as (t & -> & Ht).
  simpl. by rewrite !requests_app, Ht.
Qed.

(** C8. The body of the config response is read with a single [Read].  When
    that call delivers only the first [length c] bytes of a body announced
    with a larger Content-Length, the rest still pending, [getWriteAPIURLs]
    reads no further and fails with the error
    [read <length c> bytes but expected <Content-Length>]. *)
Theorem getWriteAPIURLs_short_read (client : Client) (req : Request)
    (resp : Response) (c : list Byte.byte) (pending : list (list Byte.byte)) :
  os_Getenv "BACALHAU_ESTUARY_WRITE_API_URL" = "" →
  http_NewRequest_error "GET" (Server client +:+ "/viewier") = None →
  applyEditors client (mkRequest "GET" (Server client +:+ "/viewier") [])
  = (req, None) →
  Client_Do client req = inl resp →
  chunks (ResponseBody resp) = c :: pending →
  pending ≠ [] →
  (Z.of_nat (length c) < ContentLength resp)%Z →
  getWriteAPIURLs client
  = Done [HTTPDo req; BodyClose]
         ([], Some (Errorf "read %d bytes but expected %d"
                      [ArgInt (Z.of_nat (length c));
                       ArgInt (ContentLength resp)])).
Proof.
  intros Henv Hnew Hedit Hdo Hchunks Hpending Hshort.
  unfold getWriteAPIURLs. rewrite Henv, Hnew, Hedit, Hdo.
  destruct (decide ("" ≠ "")) as [?|_]; [done|].
  destruct (decide (ContentLength resp < 0)%Z) as [?|_]; [lia|].
  unfold Body_Read. rewrite Hchunks, length_replicate.
  rewrite Nat.min_l by lia.
  destruct (decide (length c < length c)) as [?|_]; [lia|].
  rewrite bool_decide_eq_false_2, andb_false_r by done.
  destruct (decide (_ ≠ _)) as [_|?]; [done|lia].
Qed.

(** *** [GetShuttleClients] *)

(** C5. Whenever the gateway client can be built and [getWriteAPIURLs]
    returns a non-empty list, [GetShuttleClients] shuffles that list with the
    draws of the random source: the shuffle never fails, it leaves the
    source in the state after its draws, the shuffled list is a permutation
    of the fetched one, and the clients are built from the shuffled list,
    one per URL, in its order.  The walk is not bound to an order: every
    order of the fetched list is the one the clients are built in for some
    draws within their bounds, from whatever state of the source delivers
    them. *)
Theorem GetShuttleClients_shuffles (config : EstuaryPublisherConfig)
    (g : Rng) (client : Client) (t : list Event) (uploadURLs : list URL) :
  NewClient getGatewayURL (makeAuthorizer (APIKey config)) = inl client →
  getWriteAPIURLs client = Done t (uploadURLs, None) →
  uploadURLs ≠ [] →
  (∃ shuffled,
     rand_Shuffle (length uploadURLs) swapURLs g uploadURLs
     = Some (shuffled, (Shuffle_draws (length uploadURLs) g).2) ∧
     shuffled ≡ₚ uploadURLs ∧
     GetShuttleClients config g
     = Done t (appendClients (makeAuthorizer (APIKey config)) shuffled [],
               (Shuffle_draws (length uploadURLs) g).2) ∧
     ∀ clients,
       appendClients (makeAuthorizer (APIKey config)) shuffled []
       = (clients, None) →
       Forall2 (λ url shuttle,
                  NewClientWithResponses (url_String url)
                    (makeAuthorizer (APIKey config))
                  = inl shuttle)
               shuffled clients) ∧
  (∀ target,
     target ≡ₚ uploadURLs →
     ∃ draws,
       length draws = length uploadURLs - 1 ∧
       (∀ k j, draws !! k = Some j → (j + k < length uploadURLs)%nat) ∧
       ∀ g0,
         (Shuffle_draws (length uploadURLs) g0).1 = draws →
         GetShuttleClients config g0
         = Done t (appendClients (makeAuthorizer (APIKey config)) target [],
                   (Shuffle_draws (length uploadURLs) g0).2)).
Proof.
  intros Hclient Hurls Hne.
  assert (∀ g0 shuffled g0',
    rand_Shuffle (length uploadURLs) swapURLs g0 uploadURLs
    = Some (shuffled, g0') →
    GetShuttleClients config g0
    = Done t (appendClients (makeAuthorizer (APIKey config)) shuffled [],
              g0')) as Hrun.
  { intros g0 shuffled g0' Hsh.
    unfold GetShuttleClients. rewrite Hclient, Hurls. simpl.
    destruct (decide (length uploadURLs < 1)) as [Hlen|_].
    { destruct uploadURLs; [done|]. simpl in Hlen. lia. }
    rewrite Hsh.
    destruct (appendClients _ shuffled []) as [clients err].
    unfold mret, Run_ret. by rewrite app_nil_r. }
  split.
  - destruct (rand_Shuffle_perm g uploadURLs)
      as (shuffled & g' & Hsh & Hperm).
    pose proof (Shuffle_from_state _ _ _ _ _ Hsh) as ->.
    exists shuffled. split_and!; [done|done|by apply Hrun|].
    intros clients (new & -> & Hnew)%appendClients_ok. done.
  - intros target Htarget.
    destruct (rand_Shuffle_follows uploadURLs target Htarget)
      as (draws & Hdraws & Hbounds & Hsh).
    exists draws. split_and!; [done|done|].
    intros g0 Hg0. by apply Hrun, Hsh.
Qed.

End EstuaryEndpoints.

(** ** The Estuary publisher and the pinning decorator *)

Section EstuaryPublishers.
Import Go Estuary.
Context `{Platform}.

(** A transport error is logged and the next shuttle is tried, with the CAR
    file opened anew. *)
Lemma tryShuttles_transport_error (shard : JobShard)
    (hostID carFile cid : string) (client : ClientWithResponses)
    (shuttles : list ClientWithResponses) (deferred : list Event)
    (response : APIResponse) (err : error) :
  os_Open carFile = inl () →
  PostContentAddCarWithBodyWithResponse client "multipart/form-data"
  = (response, Some err) →
  tryShuttles shard hostID carFile cid (client :: shuttles) deferred
  = (emit (FileOpen carFile);;
     emit (ContentAddCar client "multipart/form-data");;
     log ErrorLevel [("error", FErr (Some err))]
         "failed to upload to Estuary host";;
     tryShuttles shard hostID carFile cid shuttles
       (FileClose carFile :: deferred)).
Proof. intros Hopen Hpost. simpl. by rewrite Hopen, Hpost. Qed.

(** When no shuttle is left the publish fails. *)
Lemma tryShuttles_exhausted (shard : JobShard) (hostID carFile cid : string)
    (deferred : list Event) :
  tryShuttles shard hostID carFile cid [] deferred
  = Done deferred
      (StorageSpec_zero,
       Some (Errorf "failed to upload to any Estuary host" [])).
Proof. reflexivity. Qed.

(** C2. An upload attempt that comes back without a transport error ends the
    walk over the shuttles with the published spec, whatever the status code
    of the response: the response is dropped unread, so an answer outside
    2xx is neither logged nor followed by a try of the next shuttle. *)
Theorem tryShuttles_ignores_status (shard : JobShard)
    (hostID carFile cid : string) (client : ClientWithResponses)
    (shuttles : list ClientWithResponses) (deferred : list Event)
    (response : APIResponse) :
  os_Open carFile = inl () →
  PostContentAddCarWithBodyWithResponse client "multipart/form-data"
  = (response, None) →
  tryShuttles shard hostID carFile cid (client :: shuttles) deferred
  = Done ([FileOpen carFile; ContentAddCar client "multipart/form-data"]
            ++ FileClose carFile :: deferred)
         (GetPublishedStorageSpec shard StorageSourceEstuary hostID cid,
          None).
Proof. intros Hopen Hpost. simpl. by rewrite Hopen, Hpost. Qed.

(** C1. For a spec whose CID or name is empty the pin task logs the missing
    component at error level and goes on: it sends the pinning request with
    the components as they are and logs the attempt. *)
Theorem pinTask_posts_without_cid_or_name (e : EstuaryPinner)
    (spec : StorageSpec) :
  CID spec = "" ∨ Name spec = "" →
  ∃ level fields,
    pinTask e spec
    = Done [Log ErrorLevel []
              "Spec %v did not contain a CID or name to pin to Estuary";
            PinningPins
              (mkPostPinningPinsJSONRequestBody (CID spec) (Name spec));
            Log level fields "Attempted to pin to Estuary"]
           ().
Proof.
  intros Hempty. unfold pinTask.
  destruct (decide (CID spec = "" ∨ Name spec = "")) as [_|?]; [|done].
  destruct (PostPinningPinsWithResponse _ _) as [response err]. simpl.
  eauto.
Qed.

(** With both components present the task sends the request without the
    error line. *)
Lemma pinTask_with_cid_and_name (e : EstuaryPinner) (spec : StorageSpec) :
  CID spec ≠ "" → Name spec ≠ "" →
  ∃ level fields,
    pinTask e spec
    = Done [PinningPins
              (mkPostPinningPinsJSONRequestBody (CID spec) (Name spec));
            Log level fields "Attempted to pin to Estuary"]
           ().
Proof.
  intros Hcid Hname. unfold pinTask.
  destruct (decide (CID spec = "" ∨ Name spec = "")) as [[?|?]|_]; [done..|].
  destruct (PostPinningPinsWithResponse _ _) as [response err]. simpl.
  eauto.
Qed.

(** C7. The decorator returns what the primary publisher returns: the same
    spec and the same error, nil or not; if the primary publisher panics so
    does the decorator.  In particular the result is the same for every
    pinning client. *)
Theorem EstuaryPinner_returns_primary_outcome (e : EstuaryPinner)
    (shard : JobShard) (hostID shardResultPath : string) :
  returned (EstuaryPinner_PublishShardResult e shard hostID shardResultPath)
  = returned (Publisher_PublishShardResult (ipfsPublisher e) shard hostID
                shardResultPath) ∧
  ∀ pinningClient,
    returned (EstuaryPinner_PublishShardResult
                (mkEstuaryPinner (ipfsPublisher e) pinningClient)
                shard hostID shardResultPath)
    = returned (EstuaryPinner_PublishShardResult e shard hostID
                  shardResultPath).
Proof.
  assert (∀ e',
    returned (EstuaryPinner_PublishShardResult e' shard hostID
                shardResultPath)
    = returned (Publisher_PublishShardResult (ipfsPublisher e') shard hostID
                  shardResultPath)) as Hout.
  { intros e'. unfold EstuaryPinner_PublishShardResult.
    destruct (Publisher_PublishShardResult _ _ _ _) as [t [spec [err|]]|t r];
      done. }
  split; [apply Hout|]. intros pinningClient. by rewrite !Hout.
Qed.

(** The pin task is started exactly when the primary publish succeeds. *)
Lemma EstuaryPinner_spawns_on_success (e : EstuaryPinner) (shard : JobShard)
    (hostID shardResultPath : string) (t : list Event) (spec : StorageSpec) :
  Publisher_PublishShardResult (ipfsPublisher e) shard hostID shardResultPath
  = Done t (spec, None) →
  EstuaryPinner_PublishShardResult e shard hostID shardResultPath
  = Done (Log DebugLevel [] "Publishing result to IPFS"
            :: t ++ [Spawn (trace (pinTask e spec))])
         (spec, None).
Proof.
  intros Hinner. unfold EstuaryPinner_PublishShardResult. by rewrite Hinner.
Qed.

End EstuaryPublishers.

(** ** The scenarios, run *)

Section Scenarios.
Import Go Estuary Scenario.

(** The upload target comes from the environment: nothing is asked of the
    gateway, which is down. *)
Lemma getWriteAPIURLs_env_override_witness :
  @getWriteAPIURLs (platform overridden) gateway_client
  = Done [Log DebugLevel [("Host", FStr "https://upload.estuary.tech")]
              "Using env-defined Estuary upload host"]
         ([mkURL "https" "" "upload.estuary.tech" "" "" ""], None) ∧
  requests (trace (@getWriteAPIURLs (platform overridden) gateway_client))
  = [].
Proof.
  apply (@getWriteAPIURLs_env_override (platform overridden) gateway_client
           "https://upload.estuary.tech").
  - reflexivity.
  - discriminate.
  - reflexivity.
Defined.

(** The config names one good endpoint and one malformed one: the list
    returned starts with two zero-valued URLs. *)
Lemma getWriteAPIURLs_zero_entries_witness :
  returned (@getWriteAPIURLs (platform healthy) gateway_client)
  = Some ([URL_zero; URL_zero; shuttle_4], None).
Proof.
  apply (@getWriteAPIURLs_zero_entries (platform healthy) gateway_client
           config_request
           (mkResponse 200 71 (mkBody [viewer_bytes] false))
           viewer_bytes (mkBody [] false) viewer_config).
  - reflexivity.
  - reflexivity.
  - reflexivity.
  - reflexivity.
  - simpl. lia.
  - vm_compute. reflexivity.
  - vm_compute. reflexivity.
  - reflexivity.
Defined.

(** The one request sent to the gateway asks for [/viewier]. *)
Lemma getWriteAPIURLs_requests_viewier_witness :
  requests (trace (@getWriteAPIURLs (platform healthy) gateway_client))
  = [config_request] ∧
  RequestURL config_request = "https://api.estuary.tech//viewier".
Proof.
  split; [|reflexivity].
  apply (@getWriteAPIURLs_requests_viewier (platform healthy) gateway_client
           config_request).
  - reflexivity.
  - reflexivity.
  - reflexivity.
Defined.

(** The 71 bytes of the config arrive as 10 bytes and then 61: the config
    is not read. *)
Lemma getWriteAPIURLs_short_read_witness :
  @getWriteAPIURLs (platform split_body) gateway_client
  = Done [HTTPDo config_request; BodyClose]
         ([], Some (Errorf "read %d bytes but expected %d"
                      [ArgInt 10; ArgInt 71])).
Proof.
  apply (@getWriteAPIURLs_short_read (platform split_body) gateway_client
           config_request
           (mkResponse 200 71
              (mkBody [take 10 viewer_bytes; drop 10 viewer_bytes] false))
           (take 10 viewer_bytes) [drop 10 viewer_bytes]).
  - reflexivity.
  - reflexivity.
  - reflexivity.
  - reflexivity.
  - reflexivity.
  - discriminate.
  - vm_compute. reflexivity.
Defined.

(** With the draws 0 and 1 the good endpoint moves to the front. *)
Lemma GetShuttleClients_shuffles_witness :
  (∃ shuffled,
     @rand_Shuffle (platform healthy) _ 3 swapURLs [0; 1]
       [URL_zero; URL_zero; shuttle_4]
     = Some (shuffled, (@Shuffle_draws (platform healthy) 3 [0; 1]).2) ∧
     shuffled ≡ₚ [URL_zero; URL_zero; shuttle_4] ∧
     @GetShuttleClients (platform healthy) (mkEstuaryPublisherConfig "KEY")
       [0; 1]
     = Done [HTTPDo config_request;
             Log WarnLevel
               [("error", FErr (Some (LibError "missing protocol scheme")));
                ("URL", FStr ":")]
               "Estuary server URL malformed";
             BodyClose]
            (@appendClients (platform healthy) (makeAuthorizer "KEY")
               shuffled [],
             (@Shuffle_draws (platform healthy) 3 [0; 1]).2) ∧
     ∀ clients,
       @appendClients (platform healthy) (makeAuthorizer "KEY") shuffled []
       = (clients, None) →
       Forall2 (λ url shuttle,
                  @NewClientWithResponses (platform healthy)
                    (@url_String (platform healthy) url)
                    (makeAuthorizer "KEY")
                  = inl shuttle)
               shuffled clients) ∧
  (∀ target,
     target ≡ₚ [URL_zero; URL_zero; shuttle_4] →
     ∃ draws,
       length draws = 2 ∧
       (∀ k j, draws !! k = Some j → (j + k < 3)%nat) ∧
       ∀ g0 : list nat,
         (@Shuffle_draws (platform healthy) 3 g0).1 = draws →
         @GetShuttleClients (platform healthy)
           (mkEstuaryPublisherConfig "KEY") g0
         = Done [HTTPDo config_request;
                 Log WarnLevel
                   [("error",
                     FErr (Some (LibError "missing protocol scheme")));
                    ("URL", FStr ":")]
                   "Estuary server URL malformed";
                 BodyClose]
                (@appendClients (platform healthy) (makeAuthorizer "KEY")
                   target [],
                 (@Shuffle_draws (platform healthy) 3 g0).2)).
Proof.
  apply (@GetShuttleClients_shuffles (platform healthy)
           (mkEstuaryPublisherConfig "KEY") [0; 1] gateway_client
           [HTTPDo config_request;
            Log WarnLevel
              [("error", FErr (Some (LibError "missing protocol scheme")));
               ("URL", FStr ":")]
              "Estuary server URL malformed";
            BodyClose]
           [URL_zero; URL_zero; shuttle_4]).
  - reflexivity.
  - vm_compute. reflexivity.
  - discriminate.
Defined.

(** The same fetch from two states of the source: the draws 0 and 1 put the
    good endpoint first, the draws 2 and 1 leave it last. *)
Example GetShuttleClients_two_orders :
  returned (@GetShuttleClients (platform healthy)
              (mkEstuaryPublisherConfig "KEY") [0; 1])
  = Some ((["https://shuttle-4.estuary.tech/"; "/"; "/"] : list string),
          None, ([] : list nat)) ∧
  returned (@GetShuttleClients (platform healthy)
              (mkEstuaryPublisherConfig "KEY") [2; 1])
  = Some ((["/"; "/"; "https://shuttle-4.estuary.tech/"] : list string),
          None, ([] : list nat)).
Proof. split; vm_compute; reflexivity. Qed.

(** The first shuttle answers 500 without a transport error: the shard
    counts as published and the second shuttle is never tried. *)
Lemma tryShuttles_ignores_status_witness :
  @tryShuttles (platform failing_shuttles) "job-1-shard-0" "node-1"
    "/tmp/bacalhau-estuary-publisher42/results.car" "bafybeigdyrzt5sfp7udm7hu76uh7y"
    (["https://shuttle-4.estuary.tech/"; "https://shuttle-5.estuary.tech/"]
       : list string)
    []
  = Done [FileOpen "/tmp/bacalhau-estuary-publisher42/results.car";
          @ContentAddCar (platform failing_shuttles)
            "https://shuttle-4.estuary.tech/" "multipart/form-data";
          FileClose "/tmp/bacalhau-estuary-publisher42/results.car"]
         (mkStorageSpec StorageSourceEstuary "job-1-shard-0-host-node-1"
            "bafybeigdyrzt5sfp7udm7hu76uh7y",
          None).
Proof.
  apply (@tryShuttles_ignores_status (platform failing_shuttles)
           "job-1-shard-0" "node-1"
           "/tmp/bacalhau-estuary-publisher42/results.car"
           "bafybeigdyrzt5sfp7udm7hu76uh7y"
           ("https://shuttle-4.estuary.tech/" : string)
           (["https://shuttle-5.estuary.tech/"] : list string) []
           (mkAPIResponse 500)).
  - reflexivity.
  - reflexivity.
Defined.

(** The primary publish hands back an empty CID: the pin task logs the
    error and sends the pinning request all the same. *)
Lemma pinTask_posts_without_cid_or_name_witness :
  ∃ level fields,
    @pinTask (platform healthy)
      (@mkEstuaryPinner (platform healthy) (ipfs_without_cid healthy)
         "https://api.estuary.tech/")
      (mkStorageSpec StorageSourceIPFS "job-1-shard-0-host-node-1" "")
    = Done [Log ErrorLevel []
              "Spec %v did not contain a CID or name to pin to Estuary";
            PinningPins
              (mkPostPinningPinsJSONRequestBody ""
                 "job-1-shard-0-host-node-1");
            Log level fields "Attempted to pin to Estuary"]
           ().
Proof.
  apply (@pinTask_posts_without_cid_or_name (platform healthy)
           (@mkEstuaryPinner (platform healthy) (ipfs_without_cid healthy)
              "https://api.estuary.tech/")
           (mkStorageSpec StorageSourceIPFS "job-1-shard-0-host-node-1" "")).
  left. reflexivity.
Defined.

(** The whole decorator on that publish: the outcome of the primary publish
    is returned, and the task it starts sends the request with the empty
    CID. *)
Example EstuaryPinner_empty_cid :
  @EstuaryPinner_PublishShardResult (platform healthy)
    (@mkEstuaryPinner (platform healthy) (ipfs_without_cid healthy)
       "https://api.estuary.tech/")
    "job-1-shard-0" "node-1" "/results"
  = Done [Log DebugLevel [] "Publishing result to IPFS";
          Spawn
            [Log ErrorLevel []
               "Spec %v did not contain a CID or name to pin to Estuary";
             PinningPins
               (mkPostPinningPinsJSONRequestBody ""
                  "job-1-shard-0-host-node-1");
             Log InfoLevel
               [("error", FErr None); ("CID", FStr "");
                ("Name", FStr "job-1-shard-0-host-node-1");
                ("Success", FBool true); ("ResponseStatusCode", FInt 202)]
               "Attempted to pin to Estuary"]]
         (mkStorageSpec StorageSourceIPFS "job-1-shard-0-host-node-1" "",
          None).
Proof. reflexivity. Qed.

(** A body delivered in full, with [io.EOF] reported along with its last
    bytes, is rejected too. *)
Example getWriteAPIURLs_eof_with_body :
  @getWriteAPIURLs
    (platform (mkSetup no_env (serve [viewer_bytes] true) (λ _, accepted)
                 (λ _, accepted) []))
    gateway_client
  = Done [HTTPDo config_request; BodyClose] ([], Some io_EOF).
Proof. vm_compute. reflexivity. Qed.

(** The whole publish against shuttles that answer 500: the first shuttle
    of the shuffled list (built from a zero-valued URL) is tried, and the
    shard is reported as published. *)
Example EstuaryPublisher_publishes_on_500 :
  returned
    (@EstuaryPublisher_PublishShardResult (platform failing_shuttles)
       (mkEstuaryPublisherConfig "KEY") "job-1-shard-0" "node-1" "/results"
       [1; 1])
  = Some (mkStorageSpec StorageSourceEstuary "job-1-shard-0-host-node-1"
            "bafybeigdyrzt5sfp7udm7hu76uh7y",
          None, []) ∧
  requests
    (trace
       (@EstuaryPublisher_PublishShardResult (platform failing_shuttles)
          (mkEstuaryPublisherConfig "KEY") "job-1-shard-0" "node-1"
          "/results" [1; 1]))
  = [config_request].
Proof. split; vm_compute; reflexivity. Qed.

End Scenarios.

(** ** Splitting and trimming *)

Section GoStringsProps.
Import GoStrings.

Lemma string_app_assoc (s1 s2 s3 : string) :
  (s1 +:+ s2) +:+ s3 = s1 +:+ (s2 +:+ s3).
Proof.
  induction s1 as [|c s1 IH]; [done|].
  change (String c ((s1 +:+ s2) +:+ s3) = String c (s1 +:+ (s2 +:+ s3))).
  by rewrite IH.
Qed.

Lemma Split_nonempty (s : string) (sep : ascii) : Split s sep ≠ [].
Proof.
  induction s as [|c s IH]; simpl; [done|].
  destruct (Ascii.eqb c sep); [done|]. by destruct (Split s sep).
Qed.

Lemma Split_free (s : string) (sep : ascii) :
  free_of sep s = true → Split s sep = [s].
Proof.
  induction s as [|c s IH]; simpl; [done|].
  intros [Hc Hs]%andb_prop. apply negb_true_iff in Hc. rewrite Hc.
  by rewrite IH.
Qed.

Lemma Split_line (line rest : string) (sep : ascii) :
  free_of sep line = true →
  Split (line +:+ String sep rest) sep = line :: Split rest sep.
Proof.
  induction line as [|c line IH]; simpl.
  - intros _. by rewrite Ascii.eqb_refl.
  - intros [Hc Hs]%andb_prop. apply negb_true_iff in Hc. rewrite Hc.
    by rewrite IH.
Qed.

(** Splitting a text at its separators and joining the pieces gives the
    text back. *)
Lemma Join_Split (s : string) (sep : ascii) : Join (Split s sep) sep = s.
Proof.
  induction s as [|c s IH]; simpl; [done|].
  destruct (Ascii.eqb_spec c sep) as [->|Hne].
  - pose proof (Split_nonempty s sep).
    destruct (Split s sep) as [|p ps] eqn:Hs; [done|].
    change (Join ("" :: p :: ps) sep) with (String sep (Join (p :: ps) sep)).
    by rewrite IH.
  - pose proof (Split_nonempty s sep).
    destruct (Split s sep) as [|p ps] eqn:Hs; [done|].
    destruct ps as [|p' ps]; simpl in *; by rewrite <-IH.
Qed.

Lemma Split_Join (parts : list string) (sep : ascii) :
  parts ≠ [] → Forall (λ part, free_of sep part = true) parts →
  Split (Join parts sep) sep = parts.
Proof.
  induction parts as [|part parts IH]; [done|]. intros _ Hfree.
  apply Forall_cons in Hfree as [Hpart Hparts].
  destruct parts as [|part' parts].
  - by apply Split_free.
  - change (Join (part :: part' :: parts) sep)
      with (part +:+ String sep (Join (part' :: parts) sep)).
    rewrite Split_line by done. by rewrite IH.
Qed.

Lemma Split_unlines (lines : list string) (sep := newline) :
  Forall (λ line, free_of sep line = true) lines →
  Split (unlines lines) sep = lines ++ [""].
Proof.
  induction lines as [|line lines IH]; [done|].
  intros [Hline Hlines]%Forall_cons. simpl.
  rewrite Split_line by done. by rewrite IH.
Qed.

Lemma TrimRight_newlines (n : nat) : TrimRight (newlines n) newline = "".
Proof. induction n as [|n IH]; simpl; [done|]. by rewrite IH. Qed.

Lemma TrimRight_app_newlines (s : string) (n : nat) :
  TrimRight (s +:+ newlines n) newline = TrimRight s newline.
Proof.
  induction s as [|c s IH]; simpl.
  - apply TrimRight_newlines.
  - by rewrite IH.
Qed.

Lemma TrimRight_fixed (s : string) :
  ends_with newline s = false → TrimRight s newline = s.
Proof.
  induction s as [|c s IH]; simpl; [done|].
  destruct s as [|c' s].
  - intros ->. done.
  - intros Hs. rewrite IH by done. by rewrite andb_false_r.
Qed.

(** What [TrimRight] cuts off is a run of line feeds, and what it leaves
    does not end in one. *)
Lemma TrimRight_spec (s : string) :
  ends_with newline (TrimRight s newline) = false ∧
  ∃ n, s = TrimRight s newline +:+ newlines n.
Proof.
  induction s as [|c s (IHe & n & IHn)]; simpl.
  - split; [done|]. by exists 0.
  - destruct (Ascii.eqb_spec c newline) as [->|Hc]; simpl.
    + destruct (String.eqb_spec (TrimRight s newline) "") as [He|Hne].
      * split; [done|]. exists (S n). simpl. f_equal.
        rewrite IHn at 1. by rewrite He.
      * split.
        -- simpl. destruct (TrimRight s newline); done.
        -- exists n. by rewrite IHn at 1.
    + split.
      * simpl. destruct (TrimRight s newline) eqn:Ht; [|done].
        by apply Ascii.eqb_neq.
      * exists n. by rewrite IHn at 1.
Qed.

End GoStringsProps.

(** ** Tar upload and download *)

Section IpfsHttpFilesProps.
Import Go GoStrings IpfsHttpFiles.

(** [UploadTar] never indexes out of range, and returns the piece before the
    last of the command output. *)
Lemma UploadTar_parts (w : World) (address sourceDir : string)
    (parts : list string) (part last : string) :
  Forall (λ p, free_of newline p = true) (parts ++ [part; last]) →
  RunCommandGetResults w "ipfs" ["--api"; address; "add"; "-rq"; sourceDir]
  = (Join (parts ++ [part; last]) newline, None) →
  UploadTar w address sourceDir = Some (part, None).
Proof.
  intros Hfree Hrun. unfold UploadTar. rewrite Hrun.
  rewrite Split_Join by (done || by destruct parts).
  rewrite length_app. simpl.
  destruct (decide (length parts + 2 ≤ 1)%nat) as [?|_]; [lia|].
  replace (length parts + 2 - 2) with (length parts + 0) by lia.
  by rewrite lookup_app_r, Nat.add_comm, Nat.add_sub by lia.
Qed.

Lemma Join_unlines (lines : list string) :
  Forall (λ line, free_of newline line = true) lines →
  Join (lines ++ [""]) newline = unlines lines.
Proof.
  intros Hfree. rewrite <-(Split_unlines lines) by done. apply Join_Split.
Qed.

Lemma unlines_app_Join (lines : list string) (last : string) :
  unlines lines +:+ last = Join (lines ++ [last]) newline.
Proof.
  induction lines as [|l lines IH]; [done|].
  change (Join ((l :: lines) ++ [last]) newline)
    with (Join (l :: lines ++ [last]) newline).
  destruct (lines ++ [last]) as [|p ps] eqn:Hl; [by destruct lines|].
  change (Join (l :: p :: ps) newline)
    with (l +:+ String newline (Join (p :: ps) newline)).
  rewrite <-IH.
  apply (string_app_assoc l (String newline (unlines lines)) last).
Qed.

(** X1. When [ipfs add -rq] succeeds and prints its lines each ended by a
    line feed, [UploadTar] returns the last line printed (the CID of the
    directory itself) with a nil error. *)
Theorem UploadTar_last_line (w : World) (address sourceDir : string)
    (lines : list string) (last : string) :
  Forall (λ line, free_of newline line = true) (lines ++ [last]) →
  RunCommandGetResults w "ipfs" ["--api"; address; "add"; "-rq"; sourceDir]
  = (unlines (lines ++ [last]), None) →
  UploadTar w address sourceDir = Some (last, None).
Proof.
  intros Hfree Hrun.
  assert (lines ++ [last; ""] = (lines ++ [last]) ++ [""]) as Hassoc
    by by rewrite <-app_assoc.
  apply (UploadTar_parts w address sourceDir lines last ""); rewrite Hassoc.
  - apply Forall_app. split; [done|]. by constructor.
  - rewrite Hrun. by rewrite <-Join_unlines by done.
Qed.

(** X2. When the output of [ipfs add -rq] holds no line feed (the empty
    output among others), [UploadTar] fails with the error
    [No parts returned from ipfs add]. *)
Theorem UploadTar_no_line_feed (w : World) (address sourceDir result : string) :
  free_of newline result = true →
  RunCommandGetResults w "ipfs" ["--api"; address; "add"; "-rq"; sourceDir]
  = (result, None) →
  UploadTar w address sourceDir
  = Some ("", Some (Errorf "No parts returned from ipfs add" [])).
Proof.
  intros Hfree Hrun. unfold UploadTar. rewrite Hrun.
  by rewrite Split_free by done.
Qed.

(** X3. When the last line of the output is not ended by a line feed,
    [UploadTar] returns the line before it. *)
Theorem UploadTar_unterminated (w : World) (address sourceDir : string)
    (lines : list string) (line last : string) :
  Forall (λ l, free_of newline l = true) (lines ++ [line; last]) →
  last ≠ "" →
  RunCommandGetResults w "ipfs" ["--api"; address; "add"; "-rq"; sourceDir]
  = (unlines (lines ++ [line]) +:+ last, None) →
  UploadTar w address sourceDir = Some (line, None).
Proof.
  intros Hfree _ Hrun.
  apply (UploadTar_parts w address sourceDir lines line last); [done|].
  rewrite Hrun, unlines_app_Join. by rewrite <-app_assoc.
Qed.

Ltac solve_elem_of :=
  rewrite ?elem_of_cons, ?elem_of_nil; intuition (discriminate || congruence).

(** X4. [DownloadTar] returns a nil error exactly when the request, the
    creation of the tar file, the copy and the tar command all succeed,
    whatever [os.Remove] answers; and it removes the tar file exactly in
    that case, so a tar file that fails to unpack is left in place. *)
Theorem DownloadTar_outcome (w : World) (targetDir cid : string) :
  (returned (DownloadTar w targetDir cid) = Some None
   ↔ download_ok w targetDir cid) ∧
  (Remove (targetDir +:+ "/" +:+ cid +:+ ".tar")
     ∈ trace (DownloadTar w targetDir cid)
   ↔ download_ok w targetDir cid).
Proof.
  unfold download_ok, DownloadTar.
  destruct (Send w) as [e1|]; simpl; [split; solve_elem_of|].
  destruct (os_Create w) as [e2|]; simpl; [split; solve_elem_of|].
  destruct (io_Copy w) as [e3|]; simpl; [split; solve_elem_of|].
  destruct (RunCommandGetResults w _ _) as [out [e4|]]; simpl;
    split; solve_elem_of.
Qed.

(** X5. Whatever happens, [DownloadTar] closes what it has opened, and only
    when it returns: the trace ends with the close of the tar file (once it
    has been created) followed by the close of the response (once the
    request has succeeded), and holds no other close. *)
Theorem DownloadTar_closes (w : World) (targetDir cid : string) :
  ∃ body,
    trace (DownloadTar w targetDir cid)
    = ApiGet cid :: body
        ++ match Send w, os_Create w with
           | None, None =>
               [OutClose (targetDir +:+ "/" +:+ cid +:+ ".tar"); ResClose]
           | None, Some _ => [ResClose]
           | Some _, _ => []
           end ∧
    (ResClose ∉ body) ∧
    (∀ name, OutClose name ∉ body).
Proof.
  unfold DownloadTar.
  destruct (Send w) as [e1|]; simpl.
  { exists []. split; [done|]. split; [|intros name]; solve_elem_of. }
  destruct (os_Create w) as [e2|]; simpl.
  { eexists [_; _]. split; [done|]. split; [|intros name]; solve_elem_of. }
  destruct (io_Copy w) as [e3|]; simpl.
  { eexists [_; _; _]. split; [done|].
    split; [|intros name]; solve_elem_of. }
  destruct (RunCommandGetResults w _ _) as [out [e4|]]; simpl.
  { eexists [_; _; _; _]. split; [done|].
    split; [|intros name]; solve_elem_of. }
  eexists [_; _; _; _; _; _]. split; [done|].
  split; [|intros name]; solve_elem_of.
Qed.

End IpfsHttpFilesProps.

(** ** [compareOutput] and the checks of the resource-limit test *)

Section Checks.
Import Go GoStrings DevstackScenarios ComputeNodeTest.

(** X6. [compareOutput] accepts an output exactly when it is the expected
    text followed by any number of line feeds and the expected text does not
    itself end in a line feed; an expected text that ends in a line feed is
    never matched. *)
Theorem compareOutput_accepts (output : list Byte.byte)
    (expectedOutput : string) :
  compareOutput output expectedOutput = None
  ↔ ends_with newline expectedOutput = false ∧
    ∃ n, string_of_list_byte output = expectedOutput +:+ newlines n.
Proof.
  unfold compareOutput.
  destruct (TrimRight_spec (string_of_list_byte output)) as (Hend & n & Hn).
  destruct (decide (_ ≠ _)) as [Hne|Heq%dec_stable]; split; try done.
  - intros (Hexp & m & Hm). destruct Hne.
    rewrite Hm, TrimRight_app_newlines. by apply TrimRight_fixed.
  - intros _. rewrite <-Heq. eauto.
Qed.

Lemma seenMax_spec (seenJobs : list SeenJobRecord) (start bound : Z) :
  (foldl (λ seenMax seenJob,
            if decide (MaxJobs seenJob > seenMax)%Z then MaxJobs seenJob
            else seenMax)
         start seenJobs ≤ bound)%Z
  ↔ (start ≤ bound)%Z ∧ Forall (λ j, (MaxJobs j ≤ bound)%Z) seenJobs.
Proof.
  revert start. induction seenJobs as [|j js IH]; intros start; simpl.
  - rewrite Forall_nil. tauto.
  - rewrite IH, Forall_cons. destruct (decide _); intuition lia.
Qed.

(** X7. [checkMaxJobs(max)] never reports an error, and answers true
    exactly when [max] is not negative and no record carries a [MaxJobs]
    above [max]: the running maximum starts from 0, so a negative [max]
    fails even on an empty list of records. *)
Theorem checkMaxJobs_spec (max : Z) (seenJobs : list SeenJobRecord) :
  (checkMaxJobs max seenJobs).2 = None ∧
  ((checkMaxJobs max seenJobs).1 = true
   ↔ (0 ≤ max)%Z ∧ Forall (λ j, (MaxJobs j ≤ max)%Z) seenJobs).
Proof.
  split; [done|]. unfold checkMaxJobs. simpl.
  by rewrite bool_decide_eq_true, seenMax_spec.
Qed.

End Checks.

(** ** The walk over the shuttles *)

Section ShuttleWalk.
Import Go Estuary EstuaryTrace.
Context `{Platform}.

Lemma replicate_cons_app {A} (n : nat) (x : A) (l : list A) :
  replicate n x ++ x :: l = replicate (S n) x ++ l.
Proof. induction n as [|n IH]; simpl; [done|]. by rewrite IH. Qed.

Lemma uploads_app (t1 t2 : list Event) :
  uploads (t1 ++ t2) = uploads t1 ++ uploads t2.
Proof. apply omap_app. Qed.

Lemma uploads_closes (n : nat) (carFile : string) :
  uploads (replicate n (FileClose carFile)) = [].
Proof. by induction n. Qed.

Lemma failed_attempts_uploads (carFile : string)
    (shuttles : list ClientWithResponses) :
  uploads (shuttles ≫= failed_attempt carFile) = shuttles.
Proof.
  induction shuttles as [|c cs IH]; [done|].
  rewrite bind_cons, uploads_app, IH. done.
Qed.

(** X8. When the CAR file can be opened, the shuttles are tried in the order
    of the list up to the first one whose upload returns without transport
    error: each one before it is tried once and its error logged, the ones
    after it are not tried, the published spec is returned, and the readers
    opened on the way, one per attempt, are all closed when the function
    returns and not before. *)
Theorem tryShuttles_stops_at_first_success (shard : JobShard)
    (hostID carFile cid : string)
    (failed : list ClientWithResponses) (client : ClientWithResponses)
    (rest : list ClientWithResponses) (response : APIResponse) :
  os_Open carFile = inl () →
  Forall upload_fails failed →
  PostContentAddCarWithBodyWithResponse client "multipart/form-data"
  = (response, None) →
  tryShuttles shard hostID carFile cid (failed ++ client :: rest) []
  = Done ((failed ≫= failed_attempt carFile)
            ++ [FileOpen carFile; ContentAddCar client "multipart/form-data"]
            ++ replicate (S (length failed)) (FileClose carFile))
         (GetPublishedStorageSpec shard StorageSourceEstuary hostID cid,
          None) ∧
  uploads (trace (tryShuttles shard hostID carFile cid
                    (failed ++ client :: rest) []))
  = failed ++ [client].
Proof.
  intros Hopen Hfailed Hpost.
  assert (∀ deferred,
    tryShuttles shard hostID carFile cid (failed ++ client :: rest) deferred
    = Done ((failed ≫= failed_attempt carFile)
              ++ [FileOpen carFile;
                  ContentAddCar client "multipart/form-data"]
              ++ replicate (S (length failed)) (FileClose carFile)
              ++ deferred)
           (GetPublishedStorageSpec shard StorageSourceEstuary hostID cid,
            None)) as Hrun.
  { induction Hfailed as [|c cs [err Hc] _ IH]; intros deferred.
    - simpl. by rewrite Hopen, Hpost.
    - rewrite bind_cons. unfold failed_attempt at 1.
      change ((c :: cs) ++ client :: rest) with (c :: cs ++ client :: rest).
      cbn [tryShuttles]. rewrite Hopen.
      destruct (PostContentAddCarWithBodyWithResponse c _) as [r e] eqn:Hp.
      simpl in Hc. subst e. rewrite IH. simpl.
      by rewrite (replicate_cons_app (length cs)). }
  rewrite Hrun, app_nil_r. split; [done|]. simpl.
  rewrite uploads_app, failed_attempts_uploads. simpl.
  by rewrite uploads_closes.
Qed.

(** X9. When the CAR file can be opened and every upload ends in a
    transport error, every shuttle of the list is tried exactly once, in
    order, each error is logged, the readers are closed at the end, and the
    publish fails with [failed to upload to any Estuary host] and the zero
    spec. *)
Theorem tryShuttles_all_fail (shard : JobShard) (hostID carFile cid : string)
    (shuttles : list ClientWithResponses) :
  os_Open carFile = inl () →
  Forall upload_fails shuttles →
  tryShuttles shard hostID carFile cid shuttles []
  = Done ((shuttles ≫= failed_attempt carFile)
            ++ replicate (length shuttles) (FileClose carFile))
         (StorageSpec_zero,
          Some (Errorf "failed to upload to any Estuary host" [])) ∧
  uploads (trace (tryShuttles shard hostID carFile cid shuttles []))
  = shuttles.
Proof.
  intros Hopen Hfailed.
  assert (∀ deferred,
    tryShuttles shard hostID carFile cid shuttles deferred
    = Done ((shuttles ≫= failed_attempt carFile)
              ++ replicate (length shuttles) (FileClose carFile)
              ++ deferred)
           (StorageSpec_zero,
            Some (Errorf "failed to upload to any Estuary host" [])))
    as Hrun.
  { induction Hfailed as [|c cs [err Hc] _ IH]; intros deferred; [done|].
    rewrite bind_cons. unfold failed_attempt at 1.
    cbn [tryShuttles]. rewrite Hopen.
    destruct (PostContentAddCarWithBodyWithResponse c _) as [r e] eqn:Hp.
    simpl in Hc. subst e. rewrite IH. simpl.
    by rewrite (replicate_cons_app (length cs)). }
  rewrite Hrun, app_nil_r. split; [done|]. simpl.
  by rewrite uploads_app, failed_attempts_uploads, uploads_closes, app_nil_r.
Qed.

(** When the CAR file cannot be opened the publish fails at once with
    the error of [os.Open]: nothing is uploaded and no further shuttle is
    tried. *)
Lemma tryShuttles_open_fails (shard : JobShard)
    (hostID carFile cid : string) (client : ClientWithResponses)
    (shuttles : list ClientWithResponses) (err : error) :
  os_Open carFile = inr err →
  tryShuttles shard hostID carFile cid (client :: shuttles) []
  = Done [FileOpen carFile] (StorageSpec_zero, Some err).
Proof. intros Hopen. simpl. by rewrite Hopen. Qed.

Lemma tryShuttles_run (shard : JobShard) (hostID carFile cid : string)
    (shuttles : list ClientWithResponses) (deferred : list Event) :
  ∃ body spec err,
    tryShuttles shard hostID carFile cid shuttles deferred
    = Done (body ++ replicate (length (uploads body)) (FileClose carFile)
              ++ deferred)
           (spec, err) ∧
    Forall (λ e, is_FileClose e = false) body ∧
    uploads body `prefix_of` shuttles ∧
    match err with
    | None =>
        spec = GetPublishedStorageSpec shard StorageSourceEstuary hostID cid
    | Some _ => spec = StorageSpec_zero
    end.
Proof.
  revert deferred. induction shuttles as [|c cs IH]; intros deferred.
  - exists [], StorageSpec_zero,
      (Some (Errorf "failed to upload to any Estuary host" [])).
    split_and!; [done|done|apply prefix_nil|done].
  - cbn [tryShuttles]. destruct (os_Open carFile) as [[]|e].
    + destruct (PostContentAddCarWithBodyWithResponse c _) as [r [e|]].
      * destruct (IH (FileClose carFile :: deferred))
          as (body & spec & err & -> & Hbody & Hpre & Hspec).
        eexists (FileOpen carFile :: ContentAddCar c _ :: Log _ _ _ :: body),
          spec, err.
        split_and!; [|by repeat constructor|by apply prefix_cons|done].
        simpl. by rewrite (replicate_cons_app (length (uploads body))).
      * exists [FileOpen carFile; ContentAddCar c "multipart/form-data"].
        eexists _, None. split_and!; [done|by repeat constructor| |done].
        simpl. apply prefix_cons, prefix_nil.
    + exists [FileOpen carFile], StorageSpec_zero, (Some e).
      split_and!; [done|by repeat constructor|apply prefix_nil|done].
Qed.

(** X10. On every path [tryShuttles] returns either the zero spec with an
    error or, with a nil error, the spec published for the given CID; it
    never panics, the shuttles it uploads to are a prefix of the list, and
    it closes as many readers as it made uploads, all of them after the last
    upload. *)
Theorem tryShuttles_invariant (shard : JobShard) (hostID carFile cid : string)
    (shuttles : list ClientWithResponses) :
  ∃ body spec err,
    tryShuttles shard hostID carFile cid shuttles []
    = Done (body ++ replicate (length (uploads body)) (FileClose carFile))
           (spec, err) ∧
    Forall (λ e, is_FileClose e = false) body ∧
    uploads body `prefix_of` shuttles ∧
    match err with
    | None =>
        spec = GetPublishedStorageSpec shard StorageSourceEstuary hostID cid
    | Some _ => spec = StorageSpec_zero
    end.
Proof.
  destruct (tryShuttles_run shard hostID carFile cid shuttles [])
    as (body & spec & err & Heq & ?).
  exists body, spec, err. by rewrite Heq, app_nil_r.
Qed.

(** X11. [EstuaryPublisher.PublishShardResult] returns a nil error only
    with the spec published for the CID that [car.CreateCar] gave for the
    CAR file [results.car] of the temporary directory, and a non-nil error
    only with the zero spec. *)
Theorem EstuaryPublisher_PublishShardResult_outcome
    (estuaryPublisher : EstuaryPublisherConfig) (shard : JobShard)
    (hostID shardResultPath : string) (g g' : Rng) (spec : StorageSpec)
    (err : option error) :
  returned (EstuaryPublisher_PublishShardResult estuaryPublisher shard hostID
              shardResultPath g)
  = Some (spec, err, g') →
  match err with
  | None =>
      ∃ tempDir cid,
        os_MkdirTemp "" "bacalhau-estuary-publisher" = inl tempDir ∧
        car_CreateCar shardResultPath (filepath_Join tempDir "results.car") 1
        = inl cid ∧
        spec = GetPublishedStorageSpec shard StorageSourceEstuary hostID cid
  | Some _ => spec = StorageSpec_zero
  end.
Proof.
  unfold EstuaryPublisher_PublishShardResult.
  destruct (os_MkdirTemp _ _) as [tempDir|e1] eqn:Htemp;
    [|by intros [= <- <- <-]].
  destruct (car_CreateCar _ _ _) as [cid|e2] eqn:Hcar;
    [|by intros [= <- <- <-]].
  destruct (GetShuttleClients estuaryPublisher g)
    as [t [[shuttles [e3|]] g1]|t r]; [by intros [= <- <- <-]| |done].
  destruct (tryShuttles_run shard hostID
              (filepath_Join tempDir "results.car") cid shuttles [])
    as (body & spec' & err' & Hrun & _ & _ & Hspec).
  simpl. rewrite Hrun. simpl. intros [= <- <- <-].
  destruct err'; [done|]. eauto.
Qed.

End ShuttleWalk.

(** ** Error and edge behaviour of the endpoint helpers *)

Section EndpointEdges.
Import Go Estuary EstuaryTrace.
Context `{Platform}.

(** X12. When [BACALHAU_ESTUARY_WRITE_API_URL] holds a non-empty string that
    [url.Parse] rejects, [getWriteAPIURLs] does not return the parse error:
    it dereferences the nil URL and panics, and so does
    [GetShuttleClients]. *)
Theorem getWriteAPIURLs_override_unparseable (config : EstuaryPublisherConfig)
    (g : Rng) (client : Client) (baseURL : string) (err : error) :
  os_Getenv "BACALHAU_ESTUARY_WRITE_API_URL" = baseURL →
  baseURL ≠ "" →
  url_Parse baseURL = inr err →
  NewClient getGatewayURL (makeAuthorizer (APIKey config)) = inl client →
  getWriteAPIURLs client
  = Panicked [Log DebugLevel [("Host", FStr baseURL)]
                "Using env-defined Estuary upload host"]
             "invalid memory address or nil pointer dereference" ∧
  returned (GetShuttleClients config g) = None.
Proof.
  intros Henv Hne Hparse Hclient.
  assert (getWriteAPIURLs client
          = Panicked [Log DebugLevel [("Host", FStr baseURL)]
                        "Using env-defined Estuary upload host"]
                     "invalid memory address or nil pointer dereference")
    as Hpanic.
  { unfold getWriteAPIURLs. rewrite Henv.
    destruct (decide (baseURL ≠ "")) as [_|?]; [|done]. by rewrite Hparse. }
  split; [done|]. unfold GetShuttleClients. by rewrite Hclient, Hpanic.
Qed.

(** X13. A config response whose length is not known ([ContentLength]
    negative) makes [getWriteAPIURLs] panic when it allocates the buffer,
    before the close of the body is deferred: the body is left open. *)
Theorem getWriteAPIURLs_unknown_length (client : Client) (req : Request)
    (resp : Response) :
  os_Getenv "BACALHAU_ESTUARY_WRITE_API_URL" = "" →
  http_NewRequest_error "GET" (Server client +:+ "/viewier") = None →
  applyEditors client (mkRequest "GET" (Server client +:+ "/viewier") [])
  = (req, None) →
  Client_Do client req = inl resp →
  (ContentLength resp < 0)%Z →
  getWriteAPIURLs client
  = Panicked [HTTPDo req] "makeslice: len out of range".
Proof.
  intros Henv Hnew Hedit Hdo Hlen.
  unfold getWriteAPIURLs. rewrite Henv, Hnew, Hedit, Hdo.
  destruct (decide ("" ≠ "")) as [?|_]; [done|].
  by destruct (decide (ContentLength resp < 0)%Z) as [_|?].
Qed.

(** X14. When the config says that content adding is disabled,
    [getWriteAPIURLs] fails with
    [cannot upload content because Estuary uploads are disabled] and no URL,
    whatever endpoints the config lists, and [GetShuttleClients] passes the
    error on without clients and without a draw from the random source. *)
Theorem getWriteAPIURLs_uploads_disabled (config : EstuaryPublisherConfig)
    (g : Rng) (client : Client) (req : Request) (resp : Response)
    (data : list Byte.byte) (rest : Body) (settings : EstuaryAPIConfig) :
  NewClient getGatewayURL (makeAuthorizer (APIKey config)) = inl client →
  os_Getenv "BACALHAU_ESTUARY_WRITE_API_URL" = "" →
  http_NewRequest_error "GET" (Server client +:+ "/viewier") = None →
  applyEditors client (mkRequest "GET" (Server client +:+ "/viewier") [])
  = (req, None) →
  Client_Do client req = inl resp →
  (0 ≤ ContentLength resp)%Z →
  Body_Read (ResponseBody resp)
    (replicate (Z.to_nat (ContentLength resp)) Byte.x00)
  = (data, Z.to_nat (ContentLength resp), None, rest) →
  json_Unmarshal data = inl settings →
  ContentAddingDisabled settings = true →
  getWriteAPIURLs client
  = Done [HTTPDo req; BodyClose]
         ([], Some (Errorf
            "cannot upload content because Estuary uploads are disabled"
            [])) ∧
  GetShuttleClients config g
  = Done [HTTPDo req; BodyClose]
         ([], Some (Errorf
            "cannot upload content because Estuary uploads are disabled"
            []), g).
Proof.
  intros Hclient Henv Hnew Hedit Hdo Hlen Hread Hjson Hdis.
  assert (getWriteAPIURLs client
          = Done [HTTPDo req; BodyClose]
              ([], Some (Errorf
                 "cannot upload content because Estuary uploads are disabled"
                 []))) as Hrun.
  { unfold getWriteAPIURLs. rewrite Henv, Hnew, Hedit, Hdo, Hread.
    destruct (decide ("" ≠ "")) as [?|_]; [done|].
    destruct (decide (ContentLength resp < 0)%Z) as [?|_]; [lia|].
    destruct (decide (Z.of_nat (Z.to_nat (ContentLength resp))
                      ≠ ContentLength resp)) as [?|_]; [lia|].
    by rewrite Hjson, Hdis. }
  split; [done|]. unfold GetShuttleClients. by rewrite Hclient, Hrun.
Qed.

(** X15. When the config lists no upload endpoint at all,
    [GetShuttleClients] fails with [no Estuary servers are available],
    returns no client and takes no draw from the random source. *)
Theorem GetShuttleClients_no_endpoints (config : EstuaryPublisherConfig)
    (g : Rng) (client : Client) (req : Request) (resp : Response)
    (data : list Byte.byte) (rest : Body) (settings : EstuaryAPIConfig) :
  NewClient getGatewayURL (makeAuthorizer (APIKey config)) = inl client →
  os_Getenv "BACALHAU_ESTUARY_WRITE_API_URL" = "" →
  http_NewRequest_error "GET" (Server client +:+ "/viewier") = None →
  applyEditors client (mkRequest "GET" (Server client +:+ "/viewier") [])
  = (req, None) →
  Client_Do client req = inl resp →
  (0 ≤ ContentLength resp)%Z →
  Body_Read (ResponseBody resp)
    (replicate (Z.to_nat (ContentLength resp)) Byte.x00)
  = (data, Z.to_nat (ContentLength resp), None, rest) →
  json_Unmarshal data = inl settings →
  ContentAddingDisabled settings = false →
  UploadEndpoints settings = [] →
  GetShuttleClients config g
  = Done [HTTPDo req; BodyClose]
         ([], Some (Errorf "no Estuary servers are available" []), g).
Proof.
  intros Hclient Henv Hnew Hedit Hdo Hlen Hread Hjson Hdis Hnone.
  unfold GetShuttleClients, getWriteAPIURLs.
  rewrite Hclient, Henv, Hnew, Hedit, Hdo, Hread, Hjson, Hdis, Hnone.
  destruct (decide ("" ≠ "")) as [?|_]; [done|].
  destruct (decide (ContentLength resp < 0)%Z) as [?|_]; [lia|].
  by destruct (decide (Z.of_nat (Z.to_nat (ContentLength resp))
                       ≠ ContentLength resp)) as [?|_]; [lia|].
Qed.

End EndpointEdges.

(** ** The config loop, the body, the draws and the pin task *)

Section EstuaryRuns.
Import Go Estuary EstuaryTrace EstuaryInstalled.
Context `{Platform}.

Lemma appendUploadURLs_trace (servers : list string)
    (uploadURLs : list URL) :
  appendUploadURLs servers uploadURLs
  = Done (malformed_warnings servers)
         (uploadURLs ++ parsedEndpoints servers).
Proof.
  revert uploadURLs. induction servers as [|server servers IH];
    intros uploadURLs.
  - simpl. unfold mret, Run_ret. by rewrite app_nil_r.
  - unfold malformed_warnings, parsedEndpoints. simpl.
    destruct (url_Parse server) as [u|e]; rewrite IH.
    + by rewrite <-app_assoc.
    + done.
Qed.

(** X16. The loop over the endpoints of the config never panics; it appends
    the endpoints that parse, in their order, to the slice it is given, and
    logs one warning for each endpoint that does not, in their order, and
    nothing else. *)
Theorem appendUploadURLs_run (servers : list string) (uploadURLs : list URL) :
  returned (appendUploadURLs servers uploadURLs)
  = Some (uploadURLs ++ parsedEndpoints servers) ∧
  trace (appendUploadURLs servers uploadURLs) = malformed_warnings servers ∧
  length (malformed_warnings servers) + length (parsedEndpoints servers)
  = length servers.
Proof.
  rewrite appendUploadURLs_trace. split_and!; [done..|].
  unfold malformed_warnings, parsedEndpoints.
  induction servers as [|server servers IH]; [done|]. simpl.
  destruct (url_Parse server); simpl; unfold omap in IH; lia.
Qed.

(** X17. After the gateway has answered the config request, whatever the
    length of the response, the read, the decoding and the parsing give:
    when [getWriteAPIURLs] returns, it has sent nothing more and has closed
    the body of the response exactly once, as the last thing it did; when
    it panics, it does so before anything else is done with the response,
    and the body is left open. *)
Theorem getWriteAPIURLs_closes_body (client : Client) (req : Request)
    (resp : Response) :
  os_Getenv "BACALHAU_ESTUARY_WRITE_API_URL" = "" →
  http_NewRequest_error "GET" (Server client +:+ "/viewier") = None →
  applyEditors client (mkRequest "GET" (Server client +:+ "/viewier") [])
  = (req, None) →
  Client_Do client req = inl resp →
  (∀ t' result,
     getWriteAPIURLs client = Done t' result →
     ∃ t,
       t' = HTTPDo req :: t ++ [BodyClose] ∧
       Forall (λ e, is_BodyClose e = false) t ∧
       requests t = []) ∧
  (∀ t' reason,
     getWriteAPIURLs client = Panicked t' reason → t' = [HTTPDo req]).
Proof.
  intros Henv Hnew Hedit Hdo.
  unfold getWriteAPIURLs. rewrite Henv, Hnew, Hedit, Hdo.
  destruct (decide ("" ≠ "")) as [?|_]; [done|].
  destruct (decide (ContentLength resp < 0)%Z) as [?|_].
  { split; [done|]. by intros ?? [= <- _]. }
  split; [|intros t' reason Hpanic; revert Hpanic];
    destruct (Body_Read _ _) as [[[responseBody bytesRead] [err|]] body].
  - intros ?? [= <- _]. by exists [].
  - destruct (decide (_ ≠ _)) as [?|_].
    { intros ?? [= <- _]. by exists []. }
    destruct (json_Unmarshal responseBody) as [config|err].
    2: { intros ?? [= <- _]. by exists []. }
    destruct (ContentAddingDisabled config).
    { intros ?? [= <- _]. by exists []. }
    rewrite appendUploadURLs_trace. simpl.
    intros ?? [= <- _].
    exists (malformed_warnings (UploadEndpoints config)).
    rewrite app_nil_r. split; [done|].
    unfold malformed_warnings.
    induction (UploadEndpoints config) as [|server servers [IH1 IH2]];
      [done|].
    simpl. destruct (url_Parse server); [done|]. simpl.
    split; [by constructor|done].
  - done.
  - destruct (decide (_ ≠ _)) as [?|_]; [done|].
    destruct (json_Unmarshal responseBody) as [config|err]; [|done].
    destruct (ContentAddingDisabled config); [done|].
    by rewrite appendUploadURLs_trace.
Qed.

(** X20. When the pinning call comes back with a response and no error,
    the pin task has sent exactly one pinning request, for the CID and the
    name of the spec, and returns after logging the attempt with the status
    of the response: at info level and as a success exactly when the status
    is 202, at error level and as a failure for every other status. *)
Theorem pinTask_one_request (e : EstuaryPinner) (spec : StorageSpec)
    (response : APIResponse) :
  PostPinningPinsWithResponse (apiClient e)
    (mkPostPinningPinsJSONRequestBody (CID spec) (Name spec))
  = (response, None) →
  pins (trace (pinTask e spec))
  = [mkPostPinningPinsJSONRequestBody (CID spec) (Name spec)] ∧
  returned (pinTask e spec) = Some () ∧
  last (trace (pinTask e spec))
  = Some (Log
            (if bool_decide (APIStatusCode response = 202%Z)
             then InfoLevel else ErrorLevel)
            [("error", FErr None); ("CID", FStr (CID spec));
             ("Name", FStr (Name spec));
             ("Success",
              FBool (bool_decide (APIStatusCode response = 202%Z)));
             ("ResponseStatusCode", FInt (APIStatusCode response))]
            "Attempted to pin to Estuary").
Proof.
  intros Hpin. unfold pinTask. rewrite Hpin.
  unfold http_StatusAccepted. simpl. rewrite andb_true_r.
  destruct (decide (CID spec = "" ∨ Name spec = "")); done.
Qed.

(** X21. The decorator logs, runs the primary publisher, and starts the pin
    task exactly when the primary publish returns a nil error: one task,
    for the spec returned, and none when the primary publish fails or
    panics. *)
Theorem EstuaryPinner_trace (e : EstuaryPinner) (shard : JobShard)
    (hostID shardResultPath : string) :
  trace (EstuaryPinner_PublishShardResult e shard hostID shardResultPath)
  = Log DebugLevel [] "Publishing result to IPFS"
      :: trace (Publisher_PublishShardResult (ipfsPublisher e) shard hostID
                  shardResultPath)
      ++ match returned (Publisher_PublishShardResult (ipfsPublisher e) shard
                           hostID shardResultPath) with
         | Some (spec, None) => [Spawn (trace (pinTask e spec))]
         | _ => []
         end.
Proof.
  unfold EstuaryPinner_PublishShardResult.
  destruct (Publisher_PublishShardResult _ _ _ _) as [t [spec [err|]]|t r];
    simpl; by rewrite ?app_nil_r.
Qed.

Section IsInstalled.
Variable GetCollectionsWithResponse :
  ClientWithResponses → APIResponse * option error.

(** X22. [EstuaryPinner.IsInstalled] answers true with a nil error exactly
    when the primary publisher does and the collections endpoint answers
    with status 200 and no error; when the primary publisher reports an
    error or is not installed, its answer is returned as it is and the
    answer of the endpoint plays no part. *)
Theorem EstuaryPinner_IsInstalled_spec
    (ipfsIsInstalled : Run Event (bool * option error)) (e : EstuaryPinner) :
  (returned (EstuaryPinner_IsInstalled GetCollectionsWithResponse
               ipfsIsInstalled e)
   = Some (true, None)
   ↔ returned ipfsIsInstalled = Some (true, None) ∧
     APIStatusCode (GetCollectionsWithResponse (apiClient e)).1 = 200%Z ∧
     (GetCollectionsWithResponse (apiClient e)).2 = None) ∧
  (∀ installed err,
     returned ipfsIsInstalled = Some (installed, err) →
     is_Some err ∨ installed = false →
     EstuaryPinner_IsInstalled GetCollectionsWithResponse ipfsIsInstalled e
     = ipfsIsInstalled).
Proof.
  unfold EstuaryPinner_IsInstalled.
  destruct ipfsIsInstalled as [t [installed [err|]]|t r]; simpl.
  - split; [split; [done|by intros [[=] _]]|].
    intros ?? [= <- <-] _. by rewrite app_nil_r.
  - destruct installed; simpl.
    + destruct (GetCollectionsWithResponse (apiClient e)) as [r [err|]];
        simpl.
      * split; [split; [done|by intros (_ & _ & [=])]|].
        intros ?? [= <- <-] [[? [=]]|[=]].
      * split.
        -- split.
           ++ intros [= Hs%bool_decide_eq_true]. done.
           ++ intros (_ & Hs & _). by rewrite bool_decide_eq_true_2.
        -- intros ?? [= <- <-] [[? [=]]|[=]].
    + split; [split; [done|by intros [[=] _]]|].
      intros ?? [= <- <-] _. by rewrite app_nil_r.
  - split; [split; [done|by intros [[=] _]]|]. done.
Qed.

End IsInstalled.

End EstuaryRuns.

(** ** The polling loop of the dashboard *)

Section DashboardPollProps.
Import Dashboard DashboardPoll.

Lemma index_sorted (theMap : gmap string (list string)) (node : string) :
  peers_sorted theMap → Sorted GoString.le (index theMap node).
Proof.
  intros Hsorted. unfold index.
  destruct (theMap !! node) as [peers|] eqn:Hnode; simpl; [|constructor].
  by apply (Hsorted node).
Qed.

Lemma links_sorted (theMap : gmap string (list string))
    (keys : list string) :
  peers_sorted theMap →
  StronglySorted GoString.le keys → NoDup keys →
  StronglySorted link_le (keys ≫= λ k, mkLink k <$> index theMap k).
Proof.
  intros Hpeers Hkeys Hnodup.
  induction keys as [|k ks IH]; [constructor|].
  apply StronglySorted_cons in Hkeys as [Hk Hks].
  apply NoDup_cons in Hnodup as [Hnotin Hnodup].
  rewrite bind_cons. apply StronglySorted_app_2.
  - intros l1 l2 (t1 & -> & _)%list_elem_of_fmap
      (k' & (t2 & -> & _)%list_elem_of_fmap & Hk')%list_elem_of_bind.
    left. simpl. split.
    + by eapply Forall_forall in Hk.
    + by intros ->.
  - apply (StronglySorted_fmap _ GoString.le).
    + intros t1 t2 Ht. by right.
    + apply Sorted_StronglySorted; [apply _|]. by apply index_sorted.
  - by apply IH.
Qed.

Lemma record_peers_eq (theMap : gmap string (list string)) (newID : string)
    (newList : gmap string (list string)) :
  record_peers theMap newID newList
  = <[newID := sort_Strings (index newList "bacalhau-job-event")]> theMap.
Proof.
  unfold record_peers, index at 1. simpl.
  by rewrite lookup_insert_eq, insert_insert_eq.
Qed.

(** X23. If every peer list of the map is sorted, then after the polling
    loop has recorded the answer of a server every peer list is sorted
    again, the server is a node of the new result, and the links of the new
    result are in increasing order of source and, for one source, of
    target. *)
Theorem record_peers_keeps_links_sorted (theMap : gmap string (list string))
    (newID : string) (newList : gmap string (list string))
    (order : list string) :
  peers_sorted theMap →
  range_order (record_peers theMap newID newList) order →
  peers_sorted (record_peers theMap newID newList) ∧
  newID ∈ ID <$> Nodes (updateResult order
                          (record_peers theMap newID newList)) ∧
  StronglySorted link_le
    (Links (updateResult order (record_peers theMap newID newList))).
Proof.
  intros Hsorted Horder.
  assert (peers_sorted (record_peers theMap newID newList)) as Hsorted'.
  { rewrite record_peers_eq.
    apply map_Forall_insert_2; [apply sort_Strings_sorted|done]. }
  assert (sort_Strings order
          ≡ₚ (map_to_list (record_peers theMap newID newList)).*1) as Hkeys.
  { by rewrite sort_Strings_perm. }
  split_and!; [done|..]; rewrite updateResult_unfold; simpl.
  - rewrite node_ids, Hkeys. apply list_elem_of_fmap.
    eexists (newID, _). split; [done|]. apply elem_of_map_to_list.
    rewrite record_peers_eq. apply lookup_insert_eq.
  - apply links_sorted; [done|..].
    + apply Sorted_StronglySorted; [apply _|apply sort_Strings_sorted].
    + rewrite Hkeys. apply NoDup_fst_map_to_list.
Qed.

End DashboardPollProps.

(** ** The swarm addresses of a node that answers *)

Section SwarmAddresses.
Import Go IpfsHttp.
Context {Multiaddr : Type} (Multiaddr_String : Multiaddr → string).

(** X24. When both lookups succeed, [GetSwarmAddresses] returns one address
    per local address of the node, in the same order: the text of the local
    address followed by [/p2p/] and the id of the node. *)
Theorem GetSwarmAddresses_ok (ipfsHttp : IPFSHttpClient Multiaddr) :
  (Swarm_LocalAddrs ipfsHttp).2 = None →
  (Key_Self ipfsHttp).2 = None →
  GetSwarmAddresses Multiaddr_String ipfsHttp
  = ((λ addr, Multiaddr_String addr +:+ "/p2p/" +:+ (Key_Self ipfsHttp).1)
       <$> (Swarm_LocalAddrs ipfsHttp).1,
     None).
Proof.
  intros Haddrs Hkey. unfold GetSwarmAddresses, GetPeerId.
  rewrite (GetLocalAddrStrings_ok Multiaddr_String) by done.
  destruct (Key_Self ipfsHttp) as [key err]. simpl in *. subst err.
  rewrite (collect_strings (λ address, address +:+ "/p2p/" +:+ key)).
  by rewrite <-list_fmap_compose.
Qed.

End SwarmAddresses.

(** ** The further scenarios, run *)

Section MoreScenariosRun.
Import Go GoStrings Estuary EstuaryTrace Scenario MoreScenarios.

(** Three lines printed, the last being the CID of the directory. *)
Lemma UploadTar_last_line_witness :
  IpfsHttpFiles.UploadTar
    (command_prints (unlines ["QmFile1"; "QmFile2"; "QmDir"]))
    "/ip4/127.0.0.1/tcp/5001" "/results"
  = Some ("QmDir", None).
Proof.
  apply (UploadTar_last_line _ _ _ ["QmFile1"; "QmFile2"] "QmDir").
  - repeat constructor.
  - reflexivity.
Defined.

(** Nothing printed. *)
Lemma UploadTar_no_line_feed_witness :
  IpfsHttpFiles.UploadTar (command_prints "") "/ip4/127.0.0.1/tcp/5001"
    "/results"
  = Some ("", Some (Errorf "No parts returned from ipfs add" [])).
Proof.
  apply (UploadTar_no_line_feed _ _ _ "").
  - reflexivity.
  - reflexivity.
Defined.

(** The last line lacks its line feed: the line before it is returned. *)
Lemma UploadTar_unterminated_witness :
  IpfsHttpFiles.UploadTar
    (command_prints (unlines ["QmFile1"; "QmFile2"] +:+ "QmDir"))
    "/ip4/127.0.0.1/tcp/5001" "/results"
  = Some ("QmFile2", None).
Proof.
  apply (UploadTar_unterminated _ _ _ ["QmFile1"] "QmFile2" "QmDir").
  - repeat constructor.
  - discriminate.
  - reflexivity.
Defined.

(** Shuttles 4 and 5 are down, shuttle 6 takes the upload, shuttle 7 is not
    asked. *)
Lemma tryShuttles_stops_at_first_success_witness :
  uploads
    (trace
       (@tryShuttles (platform two_down) "job-1-shard-0" "node-1"
          "/tmp/results.car" "bafybeigdyrzt5sfp7udm7hu76uh7y"
          (["https://shuttle-4.estuary.tech/";
            "https://shuttle-5.estuary.tech/";
            "https://shuttle-6.estuary.tech/";
            "https://shuttle-7.estuary.tech/"] : list string)
          []))
  = (["https://shuttle-4.estuary.tech/"; "https://shuttle-5.estuary.tech/";
      "https://shuttle-6.estuary.tech/"] : list string).
Proof.
  apply (@tryShuttles_stops_at_first_success (platform two_down)
           "job-1-shard-0" "node-1" "/tmp/results.car"
           "bafybeigdyrzt5sfp7udm7hu76uh7y"
           (["https://shuttle-4.estuary.tech/";
             "https://shuttle-5.estuary.tech/"] : list string)
           ("https://shuttle-6.estuary.tech/" : string)
           (["https://shuttle-7.estuary.tech/"] : list string)
           (mkAPIResponse 202)).
  - reflexivity.
  - repeat constructor; by eexists.
  - reflexivity.
Defined.

(** Every shuttle is down. *)
Lemma tryShuttles_all_fail_witness :
  returned
    (@tryShuttles (platform all_down) "job-1-shard-0" "node-1"
       "/tmp/results.car" "bafybeigdyrzt5sfp7udm7hu76uh7y"
       (["https://shuttle-4.estuary.tech/";
         "https://shuttle-5.estuary.tech/"] : list string)
       [])
  = Some (StorageSpec_zero,
          Some (Errorf "failed to upload to any Estuary host" [])) ∧
  uploads
    (trace
       (@tryShuttles (platform all_down) "job-1-shard-0" "node-1"
          "/tmp/results.car" "bafybeigdyrzt5sfp7udm7hu76uh7y"
          (["https://shuttle-4.estuary.tech/";
            "https://shuttle-5.estuary.tech/"] : list string)
          []))
  = (["https://shuttle-4.estuary.tech/"; "https://shuttle-5.estuary.tech/"]
       : list string).
Proof.
  destruct (@tryShuttles_all_fail (platform all_down) "job-1-shard-0"
              "node-1" "/tmp/results.car" "bafybeigdyrzt5sfp7udm7hu76uh7y"
              (["https://shuttle-4.estuary.tech/";
                "https://shuttle-5.estuary.tech/"] : list string))
    as [Hrun Huploads].
  - reflexivity.
  - repeat constructor; by eexists.
  - split; [by rewrite Hrun|exact Huploads].
Defined.

(** The CAR file cannot be opened. *)
Lemma tryShuttles_open_fails_witness :
  @tryShuttles unreadable_car "job-1-shard-0" "node-1" "/tmp/results.car"
    "bafybeigdyrzt5sfp7udm7hu76uh7y"
    (["https://shuttle-4.estuary.tech/"; "https://shuttle-5.estuary.tech/"]
       : list string)
    []
  = Done [FileOpen "/tmp/results.car"]
         (StorageSpec_zero, Some (LibError "permission denied")).
Proof.
  apply (@tryShuttles_open_fails unreadable_car "job-1-shard-0" "node-1"
           "/tmp/results.car" "bafybeigdyrzt5sfp7udm7hu76uh7y").
  reflexivity.
Defined.

(** The override is [":"]. *)
Lemma getWriteAPIURLs_override_unparseable_witness :
  @getWriteAPIURLs (platform bad_override) gateway_client
  = Panicked [Log DebugLevel [("Host", FStr ":")]
                "Using env-defined Estuary upload host"]
             "invalid memory address or nil pointer dereference" ∧
  returned (@GetShuttleClients (platform bad_override)
              (mkEstuaryPublisherConfig "KEY") [])
  = None.
Proof.
  apply (@getWriteAPIURLs_override_unparseable (platform bad_override)
           (mkEstuaryPublisherConfig "KEY") [] gateway_client ":"
           (LibError "missing protocol scheme")).
  - reflexivity.
  - discriminate.
  - reflexivity.
  - reflexivity.
Defined.

(** The gateway answers without a content length. *)
Lemma getWriteAPIURLs_unknown_length_witness :
  @getWriteAPIURLs (platform chunked_gateway) gateway_client
  = Panicked [HTTPDo config_request] "makeslice: len out of range".
Proof.
  apply (@getWriteAPIURLs_unknown_length (platform chunked_gateway)
           gateway_client config_request
           (mkResponse 200 (-1) (mkBody [viewer_bytes] false))).
  - reflexivity.
  - reflexivity.
  - reflexivity.
  - reflexivity.
  - simpl. lia.
Defined.

(** The config says that uploads are disabled. *)
Lemma getWriteAPIURLs_uploads_disabled_witness :
  @getWriteAPIURLs (gateway_says uploads_disabled) gateway_client
  = Done [HTTPDo config_request; BodyClose]
         ([], Some (Errorf
            "cannot upload content because Estuary uploads are disabled"
            [])) ∧
  @GetShuttleClients (gateway_says uploads_disabled)
    (mkEstuaryPublisherConfig "KEY") [3; 1]
  = Done [HTTPDo config_request; BodyClose]
         ([], Some (Errorf
            "cannot upload content because Estuary uploads are disabled"
            []), [3; 1]).
Proof.
  apply (@getWriteAPIURLs_uploads_disabled (gateway_says uploads_disabled)
           (mkEstuaryPublisherConfig "KEY") [3; 1] gateway_client
           config_request
           (mkResponse 200 71 (mkBody [viewer_bytes] false))
           viewer_bytes (mkBody [] false) uploads_disabled).
  - reflexivity.
  - reflexivity.
  - reflexivity.
  - reflexivity.
  - reflexivity.
  - simpl. lia.
  - vm_compute. reflexivity.
  - vm_compute. reflexivity.
  - reflexivity.
Defined.

(** The config lists no endpoint. *)
Lemma GetShuttleClients_no_endpoints_witness :
  @GetShuttleClients (gateway_says no_endpoints)
    (mkEstuaryPublisherConfig "KEY") [3; 1]
  = Done [HTTPDo config_request; BodyClose]
         ([], Some (Errorf "no Estuary servers are available" []), [3; 1]).
Proof.
  apply (@GetShuttleClients_no_endpoints (gateway_says no_endpoints)
           (mkEstuaryPublisherConfig "KEY") [3; 1] gateway_client
           config_request
           (mkResponse 200 71 (mkBody [viewer_bytes] false))
           viewer_bytes (mkBody [] false) no_endpoints).
  - reflexivity.
  - reflexivity.
  - reflexivity.
  - reflexivity.
  - reflexivity.
  - simpl. lia.
  - vm_compute. reflexivity.
  - vm_compute. reflexivity.
  - reflexivity.
  - reflexivity.
Defined.

(** A publish that succeeds. *)
Lemma EstuaryPublisher_PublishShardResult_outcome_witness :
  ∃ tempDir cid,
    @os_MkdirTemp (platform healthy) "" "bacalhau-estuary-publisher"
    = inl tempDir ∧
    @car_CreateCar (platform healthy) "/results"
      (@filepath_Join (platform healthy) tempDir "results.car") 1
    = inl cid ∧
    mkStorageSpec StorageSourceEstuary "job-1-shard-0-host-node-1"
      "bafybeigdyrzt5sfp7udm7hu76uh7y"
    = @GetPublishedStorageSpec (platform healthy) "job-1-shard-0"
        StorageSourceEstuary "node-1" cid.
Proof.
  apply (@EstuaryPublisher_PublishShardResult_outcome (platform healthy)
           (mkEstuaryPublisherConfig "KEY") "job-1-shard-0" "node-1"
           "/results" [0; 1] []
           (mkStorageSpec StorageSourceEstuary "job-1-shard-0-host-node-1"
              "bafybeigdyrzt5sfp7udm7hu76uh7y")
           None).
  vm_compute. reflexivity.
Defined.

(** The pinning service answers with status 500: one request, and the
    attempt is logged as a failure. *)
Lemma pinTask_one_request_witness :
  pins (trace (@pinTask (platform pin_rejected)
                 (@mkEstuaryPinner (platform pin_rejected)
                    (ipfs_without_cid pin_rejected)
                    "https://api.estuary.tech/")
                 (mkStorageSpec StorageSourceIPFS
                    "job-1-shard-0-host-node-1" "QmResult")))
  = [mkPostPinningPinsJSONRequestBody "QmResult"
       "job-1-shard-0-host-node-1"] ∧
  returned (@pinTask (platform pin_rejected)
              (@mkEstuaryPinner (platform pin_rejected)
                 (ipfs_without_cid pin_rejected)
                 "https://api.estuary.tech/")
              (mkStorageSpec StorageSourceIPFS
                 "job-1-shard-0-host-node-1" "QmResult"))
  = Some () ∧
  last (trace (@pinTask (platform pin_rejected)
                 (@mkEstuaryPinner (platform pin_rejected)
                    (ipfs_without_cid pin_rejected)
                    "https://api.estuary.tech/")
                 (mkStorageSpec StorageSourceIPFS
                    "job-1-shard-0-host-node-1" "QmResult")))
  = Some (@Log (platform pin_rejected) ErrorLevel
            [("error", FErr None); ("CID", FStr "QmResult");
             ("Name", FStr "job-1-shard-0-host-node-1");
             ("Success", FBool false);
             ("ResponseStatusCode", FInt 500)]
            "Attempted to pin to Estuary").
Proof.
  apply (@pinTask_one_request (platform pin_rejected)
           (@mkEstuaryPinner (platform pin_rejected)
              (ipfs_without_cid pin_rejected) "https://api.estuary.tech/")
           (mkStorageSpec StorageSourceIPFS "job-1-shard-0-host-node-1"
              "QmResult")
           server_error.1).
  reflexivity.
Defined.

(** The body of the config response is closed last. *)
Lemma getWriteAPIURLs_closes_body_witness :
  ∃ t,
    trace (@getWriteAPIURLs (platform healthy) gateway_client)
    = HTTPDo config_request :: t ++ [BodyClose] ∧
    Forall (λ e, is_BodyClose e = false) t ∧
    requests t = [].
Proof.
  destruct (@getWriteAPIURLs_closes_body (platform healthy) gateway_client
              config_request
              (mkResponse 200 71 (mkBody [viewer_bytes] false)))
    as [Hreturns _]; [reflexivity..|].
  apply (Hreturns _ ([URL_zero; URL_zero; shuttle_4], None)).
  vm_compute. reflexivity.
Defined.

(** Both lookups of a node with two addresses succeed. *)
Lemma GetSwarmAddresses_ok_witness :
  IpfsHttp.GetSwarmAddresses id two_addresses
  = (["/ip4/127.0.0.1/tcp/4001/p2p/QmPeer";
      "/ip4/10.0.0.7/tcp/4001/p2p/QmPeer"], None).
Proof.
  apply (GetSwarmAddresses_ok id two_addresses).
  - reflexivity.
  - reflexivity.
Defined.

(** A third server [c] answers with the peers [b] and [a]. *)
Lemma record_peers_keeps_links_sorted_witness :
  DashboardPoll.peers_sorted
    (DashboardPoll.record_peers Dashboard.two_nodes "c" peers_of_c) ∧
  "c" ∈ Dashboard.ID
          <$> Dashboard.Nodes
                (Dashboard.updateResult ["c"; "a"; "b"]
                   (DashboardPoll.record_peers Dashboard.two_nodes "c"
                      peers_of_c)) ∧
  StronglySorted DashboardPoll.link_le
    (Dashboard.Links
       (Dashboard.updateResult ["c"; "a"; "b"]
          (DashboardPoll.record_peers Dashboard.two_nodes "c" peers_of_c))).
Proof.
  apply (record_peers_keeps_links_sorted Dashboard.two_nodes "c" peers_of_c
           ["c"; "a"; "b"]).
  - unfold DashboardPoll.peers_sorted, Dashboard.two_nodes.
    apply map_Forall_insert_2; [by repeat constructor|].
    apply map_Forall_insert_2; [by repeat constructor|].
    apply map_Forall_empty.
  - unfold Dashboard.range_order. vm_compute. reflexivity.
Defined.

(** The result of that poll. *)
Example record_peers_result :
  Dashboard.updateResult ["c"; "a"; "b"]
    (DashboardPoll.record_peers Dashboard.two_nodes "c" peers_of_c)
  = Dashboard.mkResult
      [Dashboard.mkNode "a" 0; Dashboard.mkNode "b" 0; Dashboard.mkNode "c" 0]
      [Dashboard.mkLink "a" "b"; Dashboard.mkLink "a" "c";
       Dashboard.mkLink "b" "a"; Dashboard.mkLink "c" "a";
       Dashboard.mkLink "c" "b"].
Proof. vm_compute. reflexivity. Qed.

End MoreScenariosRun.

(** ** Every order of the endpoints can come out of the shuffle *)

Section ShuffleReach.
Import Go Estuary Scenario.
Variable s : Setup.

Lemma scripted_draw (j bound : nat) (draws : list nat) :
  j < bound → @rand_Intn (platform s) (j :: draws) bound = (j, draws).
Proof. intros Hj. simpl. by rewrite Nat.mod_small. Qed.

Lemma Shuffle_from_reaches (i : nat) (l target : list URL) :
  length l = length target → (S i ≤ length l)%nat →
  drop (S i) l = drop (S i) target →
  take (S i) l ≡ₚ take (S i) target →
  ∃ draws,
    @Shuffle_from (platform s) _ i swapURLs draws l = Some (target, []).
Proof.
  revert l. induction i as [|i IH]; intros l Hlen Hi Hdrop Htake.
  - exists []. simpl. do 2 f_equal.
    destruct l as [|x l], target as [|y target]; simpl in *; try lia.
    apply Permutation_singleton_l in Htake. rewrite !drop_0 in Hdrop.
    rewrite take_0 in Htake. congruence.
  - destruct (lookup_lt_is_Some_2 target (S i)) as [x Hx]; [lia|].
    destruct (lookup_lt_is_Some_2 l (S i)) as [y Hy]; [lia|].
    assert (x ∈ take (S (S i)) l) as [j Hj]%list_elem_of_lookup.
    { rewrite Htake. apply list_elem_of_lookup. exists (S i).
      by rewrite lookup_take_lt by lia. }
    apply lookup_take_Some in Hj as [Hj Hjlt].
    destruct (swap_places (S i) j l x y) as (Hswap & Hat & Hd & Ht);
      [done|done|lia|].
    destruct (IH (<[j := y]> (<[S i := x]> l))) as [draws Hdraws].
    + by rewrite !length_insert.
    + rewrite !length_insert. lia.
    + rewrite (drop_S _ x (S i)) by done.
      rewrite (drop_S target x (S i)) by done. by rewrite Hd, Hdrop.
    + apply (inj (.++ [x])).
      rewrite <-(take_S_r _ _ x) by done.
      rewrite <-(take_S_r target _ x) by done. by rewrite Ht.
    + exists (j :: draws). rewrite Shuffle_from_S.
      rewrite scripted_draw by lia. by rewrite Hswap.
Qed.

(** X19. With a random source that delivers scripted draws, every
    rearrangement of the fetched list is the outcome of the shuffle of
    [GetShuttleClients] for some draws, which it uses up: no endpoint is
    bound to a place in the walk. *)
Theorem rand_Shuffle_reaches (uploadURLs target : list URL) :
  target ≡ₚ uploadURLs →
  ∃ draws,
    @rand_Shuffle (platform s) _ (length uploadURLs) swapURLs draws
      uploadURLs
    = Some (target, []).
Proof.
  intros Hperm. unfold rand_Shuffle.
  destruct uploadURLs as [|u us].
  - apply Permutation_nil_r in Hperm as ->. by exists [].
  - pose proof (Permutation_length Hperm) as Hlen. simpl in Hlen.
    apply Shuffle_from_reaches; simpl; rewrite ?Nat.sub_0_r.
    + done.
    + lia.
    + rewrite !drop_ge by (simpl; lia). done.
    + change (take (S (length us)) (u :: us) ≡ₚ take (S (length us)) target).
      rewrite !take_ge by (simpl; lia). done.
Qed.

End ShuffleReach.

(** The order that puts the good endpoint first. *)
Lemma rand_Shuffle_reaches_witness :
  ∃ draws,
    @Estuary.rand_Shuffle (Scenario.platform Scenario.healthy) _ 3 Estuary.swapURLs draws
      [Estuary.URL_zero; Estuary.URL_zero; Scenario.shuttle_4]
    = Some ([Scenario.shuttle_4; Estuary.URL_zero; Estuary.URL_zero], []).
Proof.
  apply (rand_Shuffle_reaches Scenario.healthy [Estuary.URL_zero; Estuary.URL_zero; Scenario.shuttle_4]
           [Scenario.shuttle_4; Estuary.URL_zero; Estuary.URL_zero]).
  apply (Permutation_app_comm [Scenario.shuttle_4] [Estuary.URL_zero; Estuary.URL_zero]).
Defined.

